(** * digo: lib/builder/writer.ts

    A shallow embedding of the three classes of [writer.ts] -- [Writer],
    [SourceMapWriter] and [BufferStream] -- and the properties of the source-map
    composing writer and of the growable buffer.

    Conventions of the embedding:
    - JavaScript numbers that hold lines, columns and indices are [Z];
    - JavaScript strings are [string]; only the code units 13 (CR) and 10 (LF)
      are ever inspected by the code;
    - a value that may be [undefined] is an [option];
    - the sparse array [mappings] of the source-map builder, indexed by line
      number, is a [gmap Z (list Mapping)];
    - every method takes the object it mutates and returns the new object.

    The methods [end] of the three classes and the getter [sourceMap] hand the
    result over to the target file and to the JSON form of the builder; the
    properties below are about the state of the writers and are stated on
    [content], [_currentLine], [_currentColumn], [_sourceMapBuilder],
    [_buffer] and [_length]. *)

From Stdlib Require Import ZArith Ascii String.
From Stdlib Require Strings.Byte.
From stdpp Require Import base option list gmap strings.

Local Open Scope string_scope.
Local Open Scope list_scope.
Local Open Scope Z_scope.

(** ** Strings and characters *)

Definition CR : ascii := "013"%char.
Definition LF : ascii := "010"%char.

(** [ch === 13] and [ch === 10] on [content.charCodeAt(i)]. *)
Definition isCR (ch : ascii) : bool := Ascii.eqb ch CR.
Definition isLF (ch : ascii) : bool := Ascii.eqb ch LF.

(** [s.length] as a JavaScript number. *)
Definition strlen (s : string) : Z := Z.of_nat (String.length s).

(** [s += ch]: append one character. *)
Definition snoc (s : string) (ch : ascii) : string := s +:+ String ch "".

(** Truthiness of a string: [""] is falsy. *)
Definition nonEmpty (s : string) : bool := negb (String.eqb s "").

(** Truthiness of a string that may be [undefined]. *)
Definition truthy (s : option string) : bool :=
  match s with
  | Some s => nonEmpty s
  | None => false
  end.

(** [s.substr(0, n)]: a negative [n] yields the empty string. *)
Definition substr0 (s : string) (n : Z) : string := String.substring 0 (Z.to_nat n) s.

(** ** The source-map builder ([../utility/sourceMap], used by the writer) *)

(** One point of a source map: the generated [column] of a generated line,
    mapped to [sourceLine]:[sourceColumn] of the source number [sourceIndex]. *)
Record Mapping := {
  column : Z;
  sourceIndex : Z;
  sourceLine : Z;
  sourceColumn : Z;
  nameIndex : option Z
}.

Record SourceMapBuilder := {
  file : option string;
  sources : list (option string);
  mappings : gmap Z (list Mapping)
}.

(** [new SourceMapBuilder]. *)
Definition newSourceMapBuilder : SourceMapBuilder :=
  {| file := None; sources := []; mappings := ∅ |}.

(** Position of the first occurrence of [p] in a sources list
    ([sources.indexOf(p)], with [None] for -1). *)
Fixpoint indexOf (p : option string) (l : list (option string)) : option nat :=
  match l with
  | [] => None
  | q :: l' => if decide (q = p) then Some 0%nat else S <$> indexOf p l'
  end.

(** Modelled from the spec: [SourceMapBuilder.addSource] is declared in
    [../utility/sourceMap], which is not part of the sources at hand.  The
    sources list is "ordered, deduplicated by original-path identity" and
    "referenced by sourceIndex": [addSource] returns the index of the path
    in the list, appending the path when it is not there yet. *)
Definition addSource (b : SourceMapBuilder) (p : option string) : Z * SourceMapBuilder :=
  match indexOf p (sources b) with
  | Some k => (Z.of_nat k, b)
  | None =>
      (Z.of_nat (length (sources b)),
       {| file := file b; sources := sources b ++ [p]; mappings := mappings b |})
  end.

(** [a[k]] on a JavaScript array with a numeric index: [undefined] when out
    of range. *)
Definition sourceAt (l : list (option string)) (k : Z) : option string :=
  if k <? 0 then None else mjoin (l !! Z.to_nat k).

(** Lines 208-214: the copy of [mapping] that is pushed, at the column
    [newColumn] and for the source number [idx] of the composed map. *)
Definition copyOf (mapping : Mapping) (newColumn idx : Z) : Mapping :=
  {| column := newColumn;
     sourceIndex := idx;
     sourceLine := sourceLine mapping;
     sourceColumn := sourceColumn mapping;
     nameIndex := nameIndex mapping |}.

(** [b.mappings[line] || []]. *)
Definition lineMappings (b : SourceMapBuilder) (line : Z) : list Mapping :=
  default [] (mappings b !! line).

(** [b.file = p]. *)
Definition setFile (b : SourceMapBuilder) (p : option string) : SourceMapBuilder :=
  {| file := p; sources := sources b; mappings := mappings b |}.

(** [b.mappings[line] = l]. *)
Definition setLineMappings (b : SourceMapBuilder) (line : Z) (l : list Mapping) : SourceMapBuilder :=
  {| file := file b; sources := sources b; mappings := <[line := l]> (mappings b) |}.

(** ** Files ([./file]): the fields the writer reads *)

Record File := {
  srcPath : option string;
  destPath : option string;
  sourceMapBuilder : option SourceMapBuilder
}.

(** [sourceFile.srcPath || sourceFile.destPath || ""]. *)
Definition originPath (sourceFile : File) : string :=
  if truthy (srcPath sourceFile) then default "" (srcPath sourceFile)
  else if truthy (destPath sourceFile) then default "" (destPath sourceFile)
  else "".

(** [interface WriterOptions]; [optIndentChar] is its optional field
    [indentChar]. *)
Record WriterOptions := {
  sourceMap : bool;
  optIndentChar : option string
}.

(** ** class Writer *)

Module Writer.

Record t := {
  file : File;
  indentString : string;
  indentChar : string;
  content : string
}.

(** [constructor(file, options?)]. *)
Definition create (file : File) (options : option WriterOptions) : t :=
  {| file := file;
     indentString := "";
     indentChar :=
       match options with
       | Some o => default (String "009" "") (optIndentChar o)
       | None => String "009" ""
       end;
     content := "" |}.

Definition setIndentString (w : t) (s : string) : t :=
  {| file := file w; indentString := s; indentChar := indentChar w; content := content w |}.

Definition setContent (w : t) (s : string) : t :=
  {| file := file w; indentString := indentString w; indentChar := indentChar w; content := s |}.

(** [indent()]. *)
Definition indent (w : t) : t := setIndentString w (indentString w +:+ indentChar w).

(** [unindent()]. *)
Definition unindent (w : t) : t :=
  setIndentString w (substr0 (indentString w) (strlen (indentString w) - strlen (indentChar w))).

(** The replacement patterns of [String.prototype.replace] for a regular
    expression without capture groups: [$$] stands for a dollar sign, [$&]
    for the matched text, [$`] for the text before the match and [$'] for
    the text behind it; every other character, a [$] that starts none of
    these included, stands for itself.  [before] and [after] are the parts
    of the whole text around the match. *)
Fixpoint substitute (replacement matched before after : string) : string :=
  match replacement with
  | "" => ""
  | String c rest =>
      if Ascii.eqb c "$"%char then
        match rest with
        | String c2 rest2 =>
            if Ascii.eqb c2 "$"%char then
              String "$"%char (substitute rest2 matched before after)
            else if Ascii.eqb c2 "&"%char then
              matched +:+ substitute rest2 matched before after
            else if Ascii.eqb c2 "`"%char then
              before +:+ substitute rest2 matched before after
            else if Ascii.eqb c2 "'"%char then
              after +:+ substitute rest2 matched before after
            else String c (substitute rest matched before after)
        | "" => String c ""
        end
      else String c (substitute rest matched before after)
  end.

(** [text.replace(/\r\n?|\n/g, replacement)], where [content] is the part of
    [text] that follows [before]: every line break -- the pair CR LF, a lone
    CR or a lone LF -- is replaced by what [replacement] stands for at that
    match. *)
Fixpoint replaceBreaks (replacement before content : string) : string :=
  match content with
  | "" => ""
  | String ch rest =>
      if isCR ch then
        match rest with
        | String ch2 rest2 =>
            if isLF ch2 then
              substitute replacement (String ch (String ch2 "")) before rest2
              +:+ replaceBreaks replacement (snoc (snoc before ch) ch2) rest2
            else
              substitute replacement (String ch "") before rest
              +:+ replaceBreaks replacement (snoc before ch) rest
        | "" =>
            substitute replacement (String ch "") before rest
            +:+ replaceBreaks replacement (snoc before ch) rest
        end
      else if isLF ch then
        substitute replacement (String ch "") before rest
        +:+ replaceBreaks replacement (snoc before ch) rest
      else String ch (replaceBreaks replacement (snoc before ch) rest)
  end.

(** [content.replace(/\r\n?|\n/g, "$&" + indentString)]: the indentation is
    part of the replacement pattern. *)
Definition reindent (indentString : string) (content : string) : string :=
  replaceBreaks ("$&" +:+ indentString) "" content.

(** [write(content, sourceFile?, sourceLine?, sourceColumn?)]: the origin
    arguments are ignored. *)
Definition write (w : t) (content : string) : t :=
  setContent w
    (Writer.content w +:+
     (if nonEmpty (indentString w) then reindent (indentString w) content else content)).

(** [toString()]. *)
Definition toString (w : t) : string := content w.

End Writer.

(** ** class SourceMapWriter extends Writer *)

Module SourceMapWriter.

Record t := {
  base : Writer.t;
  _sourceMapBuilder : SourceMapBuilder;
  _currentLine : Z;
  _currentColumn : Z
}.

(** [constructor(file, options?)]. *)
Definition create (file : File) (options : option WriterOptions) : t :=
  {| base := Writer.create file options;
     _sourceMapBuilder := setFile newSourceMapBuilder (srcPath file);
     _currentLine := 0;
     _currentColumn := 0 |}.

Definition indentString (w : t) : string := Writer.indentString (base w).
Definition content (w : t) : string := Writer.content (base w).

Definition setBase (w : t) (b : Writer.t) : t :=
  {| base := b; _sourceMapBuilder := _sourceMapBuilder w;
     _currentLine := _currentLine w; _currentColumn := _currentColumn w |}.

Definition setBuilder (w : t) (b : SourceMapBuilder) : t :=
  {| base := base w; _sourceMapBuilder := b;
     _currentLine := _currentLine w; _currentColumn := _currentColumn w |}.

Definition setColumn (w : t) (c : Z) : t :=
  {| base := base w; _sourceMapBuilder := _sourceMapBuilder w;
     _currentLine := _currentLine w; _currentColumn := c |}.

(** [indent()] and [unindent()], inherited. *)
Definition indent (w : t) : t := setBase w (Writer.indent (base w)).
Definition unindent (w : t) : t := setBase w (Writer.unindent (base w)).

(** [this.indentString ? this.indentString.length : 0]. *)
Definition indentLength (w : t) : Z :=
  if nonEmpty (indentString w) then strlen (indentString w) else 0.

(** Lines 139-145: [n] is the value of [lastLineBreak] before the
    pre-decrement; the result is the index of the last CR or LF of
    [content], or -1. *)
Fixpoint findLastLineBreak (content : string) (n : nat) : Z :=
  match n with
  | O => -1
  | S k =>
      match String.get k content with
      | Some ch =>
          if isCR ch || isLF ch then Z.of_nat k
          else findLastLineBreak content k
      | None => findLastLineBreak content k
      end
  end.

(** [mappings.length && mappings[mappings.length - 1].column === newColumn]. *)
Definition lastColumnIs (l : list Mapping) (newColumn : Z) : bool :=
  match last l with
  | Some m => column m =? newColumn
  | None => false
  end.

(** Lines 186-216: the [for ... of] loop over the mappings that the origin
    map holds for [sourceLine]; [l] is the array [mappings] of the current
    generated line, [b] the builder whose sources list [addSource]
    extends. *)
Fixpoint copyMappings (srcSourceMap : SourceMapBuilder)
    (len lastLineBreak i sourceColumn currentColumn : Z)
    (entries : list Mapping) (l : list Mapping) (b : SourceMapBuilder)
    : list Mapping * SourceMapBuilder :=
  match entries with
  | [] => (l, b)
  | mapping :: entries' =>
      if (i =? 0) && (column mapping <? sourceColumn) then
        (* continue *)
        copyMappings srcSourceMap len lastLineBreak i sourceColumn currentColumn entries' l b
      else if (i =? lastLineBreak)
              && (len + (if i =? 0 then sourceColumn else - lastLineBreak) <=? column mapping) then
        (* break *)
        (l, b)
      else
        let newColumn := column mapping - sourceColumn + currentColumn in
        let l1 := if lastColumnIs l newColumn then removelast l else l in
        let r := addSource b (sourceAt (sources srcSourceMap) (sourceIndex mapping)) in
        copyMappings srcSourceMap len lastLineBreak i sourceColumn currentColumn entries'
          (l1 ++ [copyOf mapping newColumn r.1]) r.2
  end.

(** Lines 176-217: the body of [if (sourceFile && (ch === 10 || i === 0))]. *)
Definition addMappings (sourceFile : File) (len lastLineBreak i : Z)
    (w : t) (sourceLine sourceColumn : Z) : t :=
  let b := _sourceMapBuilder w in
  let r := addSource b (Some (originPath sourceFile)) in
  let l := lineMappings b (_currentLine w)
           ++ [{| column := _currentColumn w;
                  sourceIndex := r.1;
                  sourceLine := sourceLine;
                  sourceColumn := sourceColumn;
                  nameIndex := None |}] in
  let c :=
    match sourceMapBuilder sourceFile with
    | Some srcSourceMap =>
        copyMappings srcSourceMap len lastLineBreak i sourceColumn (_currentColumn w)
          (lineMappings srcSourceMap sourceLine) l r.2
    | None => (l, r.2)
    end in
  setBuilder w (setLineMappings c.2 (_currentLine w) c.1).

(** Lines 173-219. *)
Definition mapHere (sourceFile : option File) (len lastLineBreak i : Z)
    (isBreak : bool) (w : t) (sourceLine sourceColumn : Z) : t :=
  match sourceFile with
  | Some f =>
      if isBreak || (i =? 0) then addMappings f len lastLineBreak i w sourceLine sourceColumn
      else w
  | None => w
  end.

(** [this.content += ch]. *)
Definition appendChar (w : t) (ch : ascii) : t :=
  setBase w (Writer.setContent (base w) (snoc (content w) ch)).

(** Lines 160-170, the writer's part: a line break has been consumed. *)
Definition lineBreak (w : t) : t :=
  {| base :=
       if nonEmpty (indentString w)
       then Writer.setContent (base w) (content w +:+ indentString w)
       else base w;
     _sourceMapBuilder := _sourceMapBuilder w;
     _currentLine := _currentLine w + 1;
     _currentColumn :=
       if nonEmpty (indentString w) then strlen (indentString w) else 0 |}.

(** Lines 148-221: the [for] loop, [rest] being the characters of
    [content] from index [i] on.  On a line break the origin cursor moves to
    [sourceLine + 1], column 0; a CR LF pair advances [i] by two and is
    mapped at the index of its LF. *)
Fixpoint writeLoop (sourceFile : option File) (len lastLineBreak : Z)
    (i : Z) (rest : string) (w : t) (sourceLine sourceColumn : Z) : t :=
  match rest with
  | "" => w
  | String ch rest1 =>
      let w1 := appendChar w ch in
      if isCR ch then
        match rest1 with
        | String ch2 rest2 =>
            if isLF ch2 then
              writeLoop sourceFile len lastLineBreak (i + 1 + 1) rest2
                (mapHere sourceFile len lastLineBreak (i + 1) true
                   (lineBreak (appendChar w1 LF)) (sourceLine + 1) 0)
                (sourceLine + 1) 0
            else
              writeLoop sourceFile len lastLineBreak (i + 1) rest1
                (mapHere sourceFile len lastLineBreak i true
                   (lineBreak w1) (sourceLine + 1) 0)
                (sourceLine + 1) 0
        | "" =>
            writeLoop sourceFile len lastLineBreak (i + 1) rest1
              (mapHere sourceFile len lastLineBreak i true
                 (lineBreak w1) (sourceLine + 1) 0)
              (sourceLine + 1) 0
        end
      else if isLF ch then
        writeLoop sourceFile len lastLineBreak (i + 1) rest1
          (mapHere sourceFile len lastLineBreak i true
             (lineBreak w1) (sourceLine + 1) 0)
          (sourceLine + 1) 0
      else
        writeLoop sourceFile len lastLineBreak (i + 1) rest1
          (mapHere sourceFile len lastLineBreak i false w1 sourceLine sourceColumn)
          sourceLine sourceColumn
  end.

(** [write(content, sourceFile?, sourceLine?, sourceColumn?)].  The origin
    line and column are only read when [sourceFile] is given, and they are
    numbers then. *)
Definition write (w : t) (content : string) (sourceFile : option File)
    (sourceLine sourceColumn : Z) : t :=
  let lastLineBreak := findLastLineBreak content (String.length content) in
  let w1 := writeLoop sourceFile (strlen content) lastLineBreak 0 content w
              sourceLine sourceColumn in
  setColumn w1
    (strlen content
     + (if lastLineBreak <? 0 then _currentColumn w1
        else - lastLineBreak + indentLength w1)).

End SourceMapWriter.

(** ** class BufferStream extends Writable *)

Module BufferStream.

(** A Node [Buffer]: a fixed-size array of bytes.  [Buffer.allocUnsafe]
    returns memory that is not initialised: a cell that was never written
    is [None]. *)
Abbreviation Buffer := (list (option Init.Byte.byte)).

(** [b.length]. *)
Definition blen (b : Buffer) : Z := Z.of_nat (length b).

(** [Buffer.allocUnsafe(size)]; a negative size raises a RangeError
    ([None]). *)
Definition allocUnsafe (size : Z) : option Buffer :=
  if size <? 0 then None else Some (replicate (Z.to_nat size) None).

(** [source.copy(target, targetStart, sourceStart, sourceEnd)] of Node, for
    [0 <= targetStart] and [0 <= sourceStart]: the bytes
    [sourceStart .. sourceEnd) of [source] are written to [target] from
    [targetStart] on; [sourceEnd] is clamped to the length of [source] and
    only as many bytes are copied as [target] has room for.  The result is
    the new content of [target]. *)
Definition copy (source target : Buffer) (targetStart sourceStart sourceEnd : Z) : Buffer :=
  let n := Z.min (Z.min sourceEnd (blen source) - sourceStart) (blen target - targetStart) in
  if n <=? 0 then target
  else take (Z.to_nat targetStart) target
       ++ take (Z.to_nat n) (drop (Z.to_nat sourceStart) source)
       ++ drop (Z.to_nat (targetStart + n)) target.

Record t := {
  file : File;
  _buffer : Buffer;
  _length : Z
}.

(** [get length()] and [get capacity()]. *)
Definition length (s : t) : Z := _length s.
Definition capacity (s : t) : Z := blen (_buffer s).

(** [constructor(file, options)]: the buffer starts as
    [Buffer.allocUnsafe(128 * 1024)]. *)
Definition create (file : File) : t :=
  {| file := file;
     _buffer := replicate (Z.to_nat (128 * 1024)) None;
     _length := 0 |}.

(** [ensureCapacity(length)]; [None] when [Buffer.allocUnsafe] raises. *)
Definition ensureCapacity (s : t) (length : Z) : option t :=
  if length <? blen (_buffer s) then Some s
  else
    let length := Z.min length (blen (_buffer s) * 2 - 1) in
    newBuffer ← allocUnsafe length;
    Some {| file := file s;
            _buffer := copy (_buffer s) newBuffer 0 0 (_length s);
            _length := _length s |}.

(** [_write(chunk, encoding, callback)]. *)
Definition _write (s : t) (chunk : Buffer) : option t :=
  s1 ← ensureCapacity s (_length s + blen chunk);
  Some {| file := file s1;
          _buffer := copy chunk (_buffer s1) (_length s1) 0 (blen chunk);
          _length := _length s1 + blen chunk |}.

(** [toBuffer(start = 0, end = this.length)]; [None] when
    [Buffer.allocUnsafe] raises (a negative size) or [copy] does ([start]
    outside of the buffer). *)
Definition toBuffer (s : t) (start end_ : Z) : option Buffer :=
  result ← allocUnsafe (end_ - start);
  if (start <? 0) || (blen (_buffer s) <? start) then None
  else Some (copy (_buffer s) result 0 start end_).

End BufferStream.

(** ** Reference notions the properties are stated with *)

Definition isBreak (ch : ascii) : bool := isCR ch || isLF ch.

Definition startsWithLF (s : string) : bool :=
  match s with
  | String ch _ => isLF ch
  | "" => false
  end.

(** The number of line breaks of a text: every LF ends a line (alone or as
    the second half of a CR LF pair), and so does every CR that no LF
    follows. *)
Fixpoint lineBreaks (s : string) : Z :=
  match s with
  | "" => 0
  | String ch rest =>
      (if isLF ch || (isCR ch && negb (startsWithLF rest)) then 1 else 0) + lineBreaks rest
  end.

(** The text is not empty and does not begin with a line break. *)
Definition startsMidLine (s : string) : bool :=
  match s with
  | String ch _ => negb (isBreak ch)
  | "" => false
  end.

(** The column at which a text ends when rendered: the number of characters
    after its last line break. *)
Fixpoint renderedColumnFrom (acc : Z) (s : string) : Z :=
  match s with
  | "" => acc
  | String ch rest =>
      if isBreak ch then renderedColumnFrom 0 rest else renderedColumnFrom (acc + 1) rest
  end.

Definition renderedColumn (s : string) : Z := renderedColumnFrom 0 s.

(** The text contains a CR or an LF. *)
Fixpoint hasBreak (s : string) : bool :=
  match s with
  | "" => false
  | String ch rest => isBreak ch || hasBreak rest
  end.

(** The number of entries of a mapping table. *)
Definition entryCount (b : SourceMapBuilder) : Z :=
  map_fold (λ _ l n, Z.of_nat (length l) + n) 0 (mappings b).

(** The sources list of [b] holds [p] at index [k]. *)
Definition resolves (b : SourceMapBuilder) (k : Z) (p : option string) : Prop :=
  0 <= k ∧ sources b !! Z.to_nat k = Some p.

(** The columns of a generated line are strictly ascending. *)
Fixpoint ascending (l : list Z) : bool :=
  match l with
  | [] => true
  | x :: l' =>
      match l' with
      | [] => true
      | y :: _ => (x <? y) && ascending l'
      end
  end.

(** The entry that a write with an origin places at the start of its text
    and after each of its line breaks. *)
Definition lineHead (column sourceIndex sourceLine sourceColumn : Z) : Mapping :=
  {| column := column; sourceIndex := sourceIndex; sourceLine := sourceLine;
     sourceColumn := sourceColumn; nameIndex := None |}.

(** The entries that writing [text] from the origin [sl]:[sc] of the source
    number [idx] adds to the generated line [j], for an origin without a map
    of its own: one at the start of the text, on the current line at the
    current column, unless the text is empty or begins with a line break
    ([atStart] tells that the text starts at index 0) ... *)
Definition startEntries (w : SourceMapWriter.t) (atStart : bool) (text : string)
    (idx sl sc : Z) (j : Z) : list Mapping :=
  if atStart && startsMidLine text && bool_decide (j = SourceMapWriter._currentLine w)
  then [lineHead (SourceMapWriter._currentColumn w) idx sl sc]
  else [].

(** ... and one after the [k]-th line break, on the [k]-th next line at the
    column of the indentation, for the origin line [sl + k], column 0. *)
Definition breakEntries (w : SourceMapWriter.t) (text : string)
    (idx sl : Z) (j : Z) : list Mapping :=
  if bool_decide (SourceMapWriter._currentLine w < j
                  ≤ SourceMapWriter._currentLine w + lineBreaks text)
  then [lineHead (SourceMapWriter.indentLength w) idx
          (sl + (j - SourceMapWriter._currentLine w)) 0]
  else [].

Definition leafEntries (w : SourceMapWriter.t) (atStart : bool) (text : string)
    (idx sl sc : Z) (j : Z) : list Mapping :=
  startEntries w atStart text idx sl sc j ++ breakEntries w text idx sl j.

(** Line [j] of the table of [b] once the entries [es] are pushed onto it. *)
Definition extendLine (b : SourceMapBuilder) (j : Z) (es : list Mapping)
    : option (list Mapping) :=
  match es with
  | [] => mappings b !! j
  | _ => Some (lineMappings b j ++ es)
  end.

(** What the loop of a write from the file [f], started at index [i] on the
    text [rest], leaves in the builder [b'] when [f] has no map of its own:
    the table of [w] extended by the entries above, the sources list of [w]
    with the path of [f] added if an entry was emitted. *)
Definition leafResult (f : File) (rest : string) (i : Z) (w : SourceMapWriter.t)
    (sl sc : Z) (b' : SourceMapBuilder) : Prop :=
  let b := SourceMapWriter._sourceMapBuilder w in
  (∀ j, mappings b' !! j
        = extendLine b j
            (leafEntries w (i =? 0) rest (addSource b (Some (originPath f))).1 sl sc j))
  ∧ sources b'
    = (if (i =? 0) && startsMidLine rest || (0 <? lineBreaks rest)
       then sources (addSource b (Some (originPath f))).2
       else sources b)
  ∧ file b' = file b.

(** [e] is a line-head entry of a write whose origin is the file [f]: it
    carries no name and its source number is that of the path of [f] in the
    sources list of [b]. *)
Definition isLineHead (f : File) (b : SourceMapBuilder) (e : Mapping) : Prop :=
  nameIndex e = None ∧ resolves b (sourceIndex e) (Some (originPath f)).

(** [e] is a copy of the entry [m] of the origin map [sm]: the original line
    and column and the name are those of [m], and the source number of [e]
    holds, in the sources list of [b], the source that the number of [m] holds
    in the sources list of [sm]. *)
Definition isCopyOf (sm b : SourceMapBuilder) (e m : Mapping) : Prop :=
  sourceLine e = sourceLine m
  ∧ sourceColumn e = sourceColumn m
  ∧ nameIndex e = nameIndex m
  ∧ resolves b (sourceIndex e) (sourceAt (sources sm) (sourceIndex m)).

(** [e] is a copy of some entry of the map that the file [f] carries. *)
Definition isCopy (f : File) (b : SourceMapBuilder) (e : Mapping) : Prop :=
  ∃ sm l m, sourceMapBuilder f = Some sm ∧ m ∈ lineMappings sm l ∧ isCopyOf sm b e m.


(** [e] was emitted at a line head where the generated column was [cc] and
    the origin cursor stood at [sl]:[sc]: it is the line-head entry that maps
    [cc] to [sl]:[sc] of the file [f], or the copy of an entry [m] that the
    map of [f] holds for its line [sl], at the column [column m - sc + cc]. *)
Definition placedAt (f : File) (b' : SourceMapBuilder) (cc sl sc : Z) (e : Mapping) : Prop :=
  (column e = cc ∧ sourceLine e = sl ∧ sourceColumn e = sc ∧ isLineHead f b' e)
  ∨ (∃ sm m, sourceMapBuilder f = Some sm ∧ m ∈ lineMappings sm sl
             ∧ column e = column m - sc + cc ∧ isCopyOf sm b' e m).

(** What the loop of a write from the file [f], started at index [i] on
    [rest] with the origin cursor at [sl]:[sc], leaves in the table of [b']:
    on the current line the entries placed at the current column for
    [sl]:[sc], if the text starts at index 0 with an ordinary character; on
    the [k]-th next line, up to the number of line breaks, the entries placed
    at the column of the indentation for the origin line [sl + k], column 0;
    and the entries that were there before. *)
Definition cursorResult (f : File) (rest : string) (i : Z) (w : SourceMapWriter.t)
    (sl sc : Z) (b' : SourceMapBuilder) : Prop :=
  let b := SourceMapWriter._sourceMapBuilder w in
  let line := SourceMapWriter._currentLine w in
  sources b `prefix_of` sources b'
  ∧ ∀ j e, e ∈ lineMappings b' j →
           e ∈ lineMappings b j
           ∨ ((i =? 0) && startsMidLine rest = true ∧ j = line
              ∧ placedAt f b' (SourceMapWriter._currentColumn w) sl sc e)
           ∨ (line < j <= line + lineBreaks rest
              ∧ placedAt f b' (SourceMapWriter.indentLength w) (sl + (j - line)) 0 e).








(** Following the specification's words ("re-append the active
    [indentString] to [content]" on each line break): the text with every
    line break -- the pair CR LF, a lone CR or a lone LF -- kept as it is and
    followed by the characters of the indentation. *)
Fixpoint insertIndent (indentString : string) (content : string) : string :=
  match content with
  | "" => ""
  | String ch rest =>
      if isCR ch then
        match rest with
        | String ch2 rest2 =>
            if isLF ch2 then String ch (String ch2 (indentString +:+ insertIndent indentString rest2))
            else String ch (indentString +:+ insertIndent indentString rest)
        | "" => String ch (indentString +:+ insertIndent indentString rest)
        end
      else if isLF ch then String ch (indentString +:+ insertIndent indentString rest)
      else String ch (insertIndent indentString rest)
  end.

(** The text holds no [$], the character that starts a replacement
    pattern. *)
Fixpoint dollarFree (s : string) : bool :=
  match s with
  | "" => true
  | String c rest => negb (Ascii.eqb c "$"%char) && dollarFree rest
  end.

(** Following the specification's words ("all are emitted to content as a
    single LF"): the text with every line break -- a CR LF pair, a lone CR or
    a lone LF -- replaced by one LF, followed by the indentation. *)
Fixpoint normalized (indentString text : string) : string :=
  match text with
  | "" => ""
  | String ch rest =>
      if isLF ch then String LF (indentString +:+ normalized indentString rest)
      else if isCR ch then
        if startsWithLF rest then normalized indentString rest
        else String LF (indentString +:+ normalized indentString rest)
      else String ch (normalized indentString rest)
  end.

(** The text ends with a CR. *)
Fixpoint endsWithCR (s : string) : bool :=
  match s with
  | "" => false
  | String ch rest =>
      match rest with
      | "" => isCR ch
      | _ => endsWithCR rest
      end
  end.

(** A CR LF pair lies across the seam of the texts [a] and [b]. *)
Definition splitPair (a b : string) : bool := endsWithCR a && startsWithLF b.

(** The first and the last generated line on which the loop of a write,
    started at index [i] on [rest], emits entries when it has an origin. *)
Definition firstMapped (rest : string) (i : Z) (w : SourceMapWriter.t) : Z :=
  if (i =? 0) && startsMidLine rest then SourceMapWriter._currentLine w
  else SourceMapWriter._currentLine w + 1.

Definition lastMapped (rest : string) (w : SourceMapWriter.t) : Z :=
  SourceMapWriter._currentLine w + lineBreaks rest.

(** How that loop changes the table: every line keeps the entries it had, in
    front of those it gets; the lines outside of the mapped ones are not
    touched; each mapped line gets at least one entry; the field [file] of
    the builder is kept. *)
Definition tableGrows (rest : string) (i : Z) (w : SourceMapWriter.t)
    (b' : SourceMapBuilder) : Prop :=
  let b := SourceMapWriter._sourceMapBuilder w in
  file b' = file b
  ∧ ∀ j, lineMappings b j `prefix_of` lineMappings b' j
         ∧ (j < firstMapped rest i w ∨ lastMapped rest w < j →
            mappings b' !! j = mappings b !! j)
         ∧ (firstMapped rest i w <= j <= lastMapped rest w →
            (length (lineMappings b j) < length (lineMappings b' j))%nat).

(** A call of one of the methods that change a [SourceMapWriter]. *)
Inductive Call :=
| CallIndent
| CallUnindent
| CallWrite (content : string) (sourceFile : option File) (sourceLine sourceColumn : Z).

Definition call (w : SourceMapWriter.t) (c : Call) : SourceMapWriter.t :=
  match c with
  | CallIndent => SourceMapWriter.indent w
  | CallUnindent => SourceMapWriter.unindent w
  | CallWrite content sourceFile sourceLine sourceColumn =>
      SourceMapWriter.write w content sourceFile sourceLine sourceColumn
  end.

(** The writer after a sequence of calls. *)
Definition calls (w : SourceMapWriter.t) (cs : list Call) : SourceMapWriter.t :=
  fold_left call cs w.

(** The call is not a write whose origin file carries a source map. *)
Definition withoutMap (c : Call) : bool :=
  match c with
  | CallWrite _ (Some f) _ _ =>
      match sourceMapBuilder f with Some _ => false | None => true end
  | _ => true
  end.

(** The table of the writer is in order: no line behind the current one has
    an entry, the entries of the current line lie left of the current column,
    and the columns of every line are strictly ascending. *)
Definition ordered (w : SourceMapWriter.t) : Prop :=
  let b := SourceMapWriter._sourceMapBuilder w in
  (∀ j, SourceMapWriter._currentLine w < j → lineMappings b j = [])
  ∧ (∀ e, e ∈ lineMappings b (SourceMapWriter._currentLine w) →
          column e < SourceMapWriter._currentColumn w)
  ∧ (∀ j, ascending (column <$> lineMappings b j) = true).

(** The stream after the chunks were written one after the other;
    [None] when one of the writes raises. *)
Fixpoint writeAll (s : BufferStream.t) (chunks : list BufferStream.Buffer)
    : option BufferStream.t :=
  match chunks with
  | [] => Some s
  | chunk :: chunks' => s1 ← BufferStream._write s chunk; writeAll s1 chunks'
  end.

(** The bytes that the stream holds: the first [length] cells of its
    buffer. *)
Definition written (s : BufferStream.t) : BufferStream.Buffer :=
  take (Z.to_nat (BufferStream._length s)) (BufferStream._buffer s).

(** Following the specification's words ("if the immediately preceding
    emitted entry on this output line already has [generatedColumn ==
    newColumn], replace it"): [e] is pushed onto the line [l], in place of
    the last entry of [l] if that one has the column of [e]. *)
Definition pushReplace (l : list Mapping) (e : Mapping) : list Mapping :=
  (if SourceMapWriter.lastColumnIs l (column e) then removelast l else l) ++ [e].

(** The entries [es] pushed that way, one after the other. *)
Definition pushAll (l es : list Mapping) : list Mapping := fold_left pushReplace es l.

(** The number of the path [p] in the sources list of [b]: the index of its
    first occurrence, -1 if the list does not hold it. *)
Definition numberOf (b : SourceMapBuilder) (p : option string) : Z :=
  match indexOf p (sources b) with
  | Some k => Z.of_nat k
  | None => -1
  end.

(** Following the specification's words: the entries of an origin line that
    are spliced in.  On the [first] scanned line the entries whose column
    precedes the origin column [sc] are skipped; on the [last] scanned line
    the entries from the first one on whose column is at or behind [bound]
    are left out. *)
Fixpoint window (first last : bool) (sc bound : Z) (es : list Mapping) : list Mapping :=
  match es with
  | [] => []
  | m :: es' =>
      if first && (column m <? sc) then window first last sc bound es'
      else if last && (bound <=? column m) then []
      else m :: window first last sc bound es'
  end.

(** The entries that the map of the file [f] holds for its line [sl], and
    the path that the source number of such an entry stands for; a file
    without a map has none. *)
Definition originLine (f : File) (sl : Z) : list Mapping :=
  match sourceMapBuilder f with
  | Some sm => lineMappings sm sl
  | None => []
  end.

Definition originSource (f : File) (m : Mapping) : option string :=
  match sourceMapBuilder f with
  | Some sm => sourceAt (sources sm) (sourceIndex m)
  | None => None
  end.

(** The copy of the origin entry [m] in the composed map [b']: rebased from
    the origin column [sc] to the generated column [cc], with the number that
    the path of its source has in [b'], and with its original line, column
    and name. *)
Definition copyTo (f : File) (b' : SourceMapBuilder) (sc cc : Z) (m : Mapping) : Mapping :=
  copyOf m (column m - sc + cc) (numberOf b' (originSource f m)).

(** What one line head leaves on its generated line: the line-head entry for
    the file [f] at the generated column [cc], mapped to [sl]:[sc], and
    behind it the copies of the entries in the window of the origin line
    [sl], each pushed in place of its predecessor when it has the same
    column. *)
Definition emission (f : File) (b' : SourceMapBuilder) (first last : bool)
    (bound cc sl sc : Z) : list Mapping :=
  pushAll [lineHead cc (numberOf b' (Some (originPath f))) sl sc]
    (copyTo f b' sc cc <$> window first last sc bound (originLine f sl)).















(** ** Inputs of the examples *)

(** A file without a source map of its own. *)
Definition leafFile (p d : option string) : File :=
  {| srcPath := p; destPath := d; sourceMapBuilder := None |}.

Definition fileA : File := leafFile (Some "a.js") None.
Definition target : File := leafFile (Some "out.js") None.

(** The text "abc\ndef". *)
Definition abc_def : string := "abc" +:+ String LF "def".

(** A file that carries a source map: line 0 of s.js has two mapping points,
    at columns 0 and 5, both from line 10 of o.js. *)
Definition mapOfS : SourceMapBuilder :=
  {| file := Some "s.js";
     sources := [Some "o.js"];
     mappings :=
       {[ 0 := [ {| column := 0; sourceIndex := 0; sourceLine := 10;
                    sourceColumn := 0; nameIndex := None |};
                 {| column := 5; sourceIndex := 0; sourceLine := 10;
                    sourceColumn := 5; nameIndex := None |} ] ]} |}.

Definition fileS : File :=
  {| srcPath := Some "s.js"; destPath := None; sourceMapBuilder := Some mapOfS |}.

(** A file that carries a source map: line 1 of t.js has three mapping
    points, at columns 0, 2 and 3, all from line 20 of o.js. *)
Definition mapOfT : SourceMapBuilder :=
  {| file := Some "t.js";
     sources := [Some "o.js"];
     mappings :=
       {[ 1 := [ {| column := 0; sourceIndex := 0; sourceLine := 20;
                    sourceColumn := 0; nameIndex := None |};
                 {| column := 2; sourceIndex := 0; sourceLine := 20;
                    sourceColumn := 2; nameIndex := None |};
                 {| column := 3; sourceIndex := 0; sourceLine := 20;
                    sourceColumn := 3; nameIndex := None |} ] ]} |}.

Definition fileT : File :=
  {| srcPath := Some "t.js"; destPath := None; sourceMapBuilder := Some mapOfT |}.

(** The text "x\nab". *)
Definition x_ab : string := "x" +:+ String LF "ab".

(** The text "a\nb". *)
Definition a_b : string := "a" +:+ String LF "b".

(** A chunk of 256 KiB, twice the initial capacity of a [BufferStream]. *)
Definition bigChunk : BufferStream.Buffer := replicate (Z.to_nat 262144) (Some Byte.xff).

(** A pipeline of two stages.  Stage 1 writes ";" without origin and "abc"
    from o.js:4:7 into s1.js; stage 2 writes the output of stage 1, verbatim,
    with s1.js and the map of stage 1 as its origin. *)
Definition fileO : File := leafFile (Some "o.js") None.

Definition stage1 : SourceMapWriter.t :=
  SourceMapWriter.write
    (SourceMapWriter.write (SourceMapWriter.create (leafFile (Some "s1.js") None) None)
       ";" None 0 0)
    "abc" (Some fileO) 4 7.



(** * Properties *)

(** ** Strings *)

Lemma append_cons (ch : ascii) (s r : string) : String ch s +:+ r = String ch (s +:+ r).
Proof. reflexivity. Qed.

Lemma append_empty_l (s : string) : "" +:+ s = s.
Proof. reflexivity. Qed.

Lemma append_empty_r (s : string) : s +:+ "" = s.
Proof. induction s as [|c s IH]; [reflexivity|]. by rewrite append_cons, IH. Qed.

Lemma append_assoc (a b c : string) : (a +:+ b) +:+ c = a +:+ (b +:+ c).
Proof. induction a as [|x a IH]; [reflexivity|]. by rewrite !append_cons, IH. Qed.

Lemma snoc_append (s : string) (ch : ascii) (r : string) :
  snoc s ch +:+ r = s +:+ String ch r.
Proof. unfold snoc. by rewrite append_assoc. Qed.

Lemma strlen_append (a b : string) : strlen (a +:+ b) = strlen a + strlen b.
Proof.
  unfold strlen. induction a as [|x a IH]; [reflexivity|].
  rewrite append_cons. cbn [String.length]. lia.
Qed.

Lemma isLF_eq (ch : ascii) : isLF ch = true → ch = LF.
Proof. unfold isLF. by intros ?%Ascii.eqb_eq. Qed.

Lemma isCR_not_LF (ch : ascii) : isCR ch = true → isLF ch = false.
Proof.
  unfold isCR, isLF. intros ->%Ascii.eqb_eq. reflexivity.
Qed.

(** Induction on a text, one line break or one ordinary character at a
    time, the way the writer scans it. *)
Lemma break_ind (P : string → Prop) :
  P "" →
  (∀ ch rest, isCR ch = true → P rest → P (String ch (String LF rest))) →
  (∀ ch rest, isBreak ch = true → isCR ch && startsWithLF rest = false →
              P rest → P (String ch rest)) →
  (∀ ch rest, isBreak ch = false → P rest → P (String ch rest)) →
  ∀ s, P s.
Proof.
  intros Hnil Hcrlf Hbreak Hchar.
  assert (H : ∀ s, P s ∧ ∀ ch, P (String ch s)).
  { induction s as [|c s [IH1 IH2]]; (split; [done|]); intros ch.
    - destruct (isBreak ch) eqn:E.
      + apply Hbreak; [done| |done]. cbn. by rewrite andb_false_r.
      + by apply Hchar.
    - destruct (isBreak ch) eqn:E.
      + destruct (isCR ch && startsWithLF (String c s)) eqn:E2.
        * apply andb_true_iff in E2 as [E2 E3]. cbn in E3.
          apply isLF_eq in E3 as ->. apply Hcrlf; [done|].
          destruct s; [done|]. apply IH1.
        * apply Hbreak; [done..|]. apply IH2.
      + apply Hchar; [done|]. apply IH2. }
  intros s. apply H.
Qed.

Lemma isBreak_CR (ch : ascii) : isCR ch = true → isBreak ch = true.
Proof. unfold isBreak. by intros ->. Qed.

Lemma notBreak (ch : ascii) : isBreak ch = false → isCR ch = false ∧ isLF ch = false.
Proof. unfold isBreak. by intros ?%orb_false_iff. Qed.

Lemma lone_break (ch : ascii) (rest : string) :
  isBreak ch = true → isCR ch && startsWithLF rest = false →
  isLF ch || (isCR ch && negb (startsWithLF rest)) = true.
Proof.
  unfold isBreak. destruct (isCR ch), (isLF ch), (startsWithLF rest); naive_solver.
Qed.

(** ** The three shapes of a scanning step *)

Lemma lineBreaks_crlf ch rest :
  isCR ch = true → lineBreaks (String ch (String LF rest)) = 1 + lineBreaks rest.
Proof.
  intros H. cbn [lineBreaks startsWithLF]. rewrite H, (isCR_not_LF _ H).
  change (isLF LF) with true. cbn. lia.
Qed.

Lemma lineBreaks_break ch rest :
  isBreak ch = true → isCR ch && startsWithLF rest = false →
  lineBreaks (String ch rest) = 1 + lineBreaks rest.
Proof. intros H1 H2. cbn [lineBreaks]. by rewrite lone_break. Qed.

Lemma lineBreaks_char ch rest :
  isBreak ch = false → lineBreaks (String ch rest) = lineBreaks rest.
Proof. intros [H1 H2]%notBreak. cbn [lineBreaks]. by rewrite H1, H2. Qed.

Lemma lineBreaks_nonneg s : 0 <= lineBreaks s.
Proof.
  induction s as [|ch rest IH]; cbn [lineBreaks]; [lia|].
  destruct (isLF ch || _); lia.
Qed.

Lemma insertIndent_crlf ind ch rest :
  isCR ch = true →
  insertIndent ind (String ch (String LF rest))
  = String ch (String LF (ind +:+ insertIndent ind rest)).
Proof. intros H. cbn [insertIndent]. rewrite H. by change (isLF LF) with true. Qed.

Lemma insertIndent_break ind ch rest :
  isBreak ch = true → isCR ch && startsWithLF rest = false →
  insertIndent ind (String ch rest) = String ch (ind +:+ insertIndent ind rest).
Proof.
  unfold isBreak. intros H1 H2. cbn [insertIndent].
  destruct (isCR ch); cbn in H1, H2.
  - destruct rest as [|ch2 rest2]; [done|]. cbn in H2. by rewrite H2.
  - by rewrite H1.
Qed.

Lemma insertIndent_char ind ch rest :
  isBreak ch = false →
  insertIndent ind (String ch rest) = String ch (insertIndent ind rest).
Proof. intros [H1 H2]%notBreak. cbn [insertIndent]. by rewrite H1, H2. Qed.

Lemma insertIndent_empty s : insertIndent "" s = s.
Proof.
  induction s as [|ch rest H IH|ch rest H1 H2 IH|ch rest H IH] using break_ind.
  - done.
  - by rewrite insertIndent_crlf, append_empty_l, IH.
  - by rewrite insertIndent_break, append_empty_l, IH.
  - by rewrite insertIndent_char, IH.
Qed.

(** ** The replacement pattern of [Writer.write] *)

Lemma substitute_dollarFree (t matched before after : string) :
  dollarFree t = true → Writer.substitute t matched before after = t.
Proof.
  induction t as [|c t IH]; [done|]. cbn [dollarFree Writer.substitute].
  intros [Hc Ht]%andb_true_iff. apply negb_true_iff in Hc. rewrite Hc.
  by rewrite IH.
Qed.

Lemma substitute_matched (ind matched before after : string) :
  Writer.substitute ("$&" +:+ ind) matched before after
  = matched +:+ Writer.substitute ind matched before after.
Proof. reflexivity. Qed.

(** An indentation without [$] is inserted as it is. *)
Lemma replaceBreaks_literal (ind : string) :
  dollarFree ind = true →
  ∀ t before, Writer.replaceBreaks ("$&" +:+ ind) before t = insertIndent ind t.
Proof.
  intros Hd t.
  induction t as [|ch rest H IH|ch rest H1 H2 IH|ch rest H IH] using break_ind;
    intros before.
  - done.
  - rewrite insertIndent_crlf by done. cbn [Writer.replaceBreaks]. rewrite H.
    change (isLF LF) with true. cbv iota.
    rewrite substitute_matched, substitute_dollarFree, IH by done.
    by rewrite !append_cons, append_empty_l.
  - rewrite insertIndent_break by done.
    assert (E : Writer.replaceBreaks ("$&" +:+ ind) before (String ch rest)
                = Writer.substitute ("$&" +:+ ind) (String ch "") before rest
                  +:+ Writer.replaceBreaks ("$&" +:+ ind) (snoc before ch) rest).
    { cbn [Writer.replaceBreaks]. unfold isBreak in H1.
      destruct (isCR ch) eqn:E1.
      - destruct rest as [|ch2 rest2]; [done|]. cbn [startsWithLF andb] in H2.
        by rewrite H2.
      - cbn [orb] in H1. by rewrite H1. }
    rewrite E, substitute_matched, substitute_dollarFree, IH by done.
    by rewrite !append_cons, append_empty_l.
  - rewrite insertIndent_char by done. destruct (notBreak _ H) as [E1 E2].
    cbn [Writer.replaceBreaks]. by rewrite E1, E2, IH.
Qed.

Lemma reindent_literal (ind t : string) :
  dollarFree ind = true → Writer.reindent ind t = insertIndent ind t.
Proof. intros Hd. by apply replaceBreaks_literal. Qed.

(** What the replacement patterns do to "a\nb": an indentation [$&] repeats
    the line break, [$$] is a single dollar sign, [$`] and [$'] insert the
    text before and behind the line break, and a [$] that starts no pattern
    stays; with the indentation [$'] the text written in two pieces differs
    from the text written at once. *)
Lemma pattern_examples :
  Writer.reindent "$&" a_b = "a" +:+ String LF (String LF "b")
  ∧ Writer.reindent "$$" a_b = "a" +:+ String LF "$b"
  ∧ Writer.reindent "$`" a_b = "a" +:+ String LF "ab"
  ∧ Writer.reindent "$'" a_b = "a" +:+ String LF "bb"
  ∧ Writer.reindent "$1$" a_b = "a" +:+ String LF "$1$b"
  ∧ (let w := Writer.indent
                (Writer.create target (Some {| sourceMap := false; optIndentChar := Some "$'" |})) in
     Writer.content (Writer.write (Writer.write w ("a" +:+ String LF "")) "b")
     = "a" +:+ String LF "b"
     ∧ Writer.content (Writer.write w a_b) = "a" +:+ String LF "bb").
Proof. cbv zeta. repeat split; by vm_compute. Qed.

(** For an indentation without [$], [Writer.write] appends the text with the
    indentation inserted behind each of its line breaks. *)
Lemma write_text (w : Writer.t) (t : string) :
  dollarFree (Writer.indentString w) = true →
  Writer.write w t
  = Writer.setContent w (Writer.content w +:+ insertIndent (Writer.indentString w) t).
Proof.
  intros Hd. unfold Writer.write, nonEmpty.
  destruct (String.eqb_spec (Writer.indentString w) "") as [->|]; cbn [negb].
  - by rewrite insertIndent_empty.
  - by rewrite reindent_literal.
Qed.

Section Loop.

Import SourceMapWriter.

Variables (sourceFile : option File) (len lastLineBreak : Z).

Lemma writeLoop_crlf i ch rest w sl sc :
  isCR ch = true →
  writeLoop sourceFile len lastLineBreak i (String ch (String LF rest)) w sl sc
  = writeLoop sourceFile len lastLineBreak (i + 1 + 1) rest
      (mapHere sourceFile len lastLineBreak (i + 1) true
         (lineBreak (appendChar (appendChar w ch) LF)) (sl + 1) 0)
      (sl + 1) 0.
Proof. intros H. cbn [writeLoop]. rewrite H. by change (isLF LF) with true. Qed.

Lemma writeLoop_break i ch rest w sl sc :
  isBreak ch = true → isCR ch && startsWithLF rest = false →
  writeLoop sourceFile len lastLineBreak i (String ch rest) w sl sc
  = writeLoop sourceFile len lastLineBreak (i + 1) rest
      (mapHere sourceFile len lastLineBreak i true
         (lineBreak (appendChar w ch)) (sl + 1) 0)
      (sl + 1) 0.
Proof.
  unfold isBreak. intros H1 H2. cbn [writeLoop].
  destruct (isCR ch); cbn in H1, H2.
  - destruct rest as [|ch2 rest2]; [done|]. cbn in H2. by rewrite H2.
  - by rewrite H1.
Qed.

Lemma writeLoop_char i ch rest w sl sc :
  isBreak ch = false →
  writeLoop sourceFile len lastLineBreak i (String ch rest) w sl sc
  = writeLoop sourceFile len lastLineBreak (i + 1) rest
      (mapHere sourceFile len lastLineBreak i false (appendChar w ch) sl sc)
      sl sc.
Proof. intros [H1 H2]%notBreak. cbn [writeLoop]. by rewrite H1, H2. Qed.

End Loop.

(** ** The cursor and the text do not depend on the origin *)

Section Cursor.

Import SourceMapWriter.

Variables (sourceFile : option File) (len lastLineBreak : Z).

Lemma mapHere_base i brk w sl sc :
  base (mapHere sourceFile len lastLineBreak i brk w sl sc) = base w.
Proof. unfold mapHere. destruct sourceFile; [destruct (_ || _)|]; reflexivity. Qed.

Lemma mapHere_line i brk w sl sc :
  _currentLine (mapHere sourceFile len lastLineBreak i brk w sl sc) = _currentLine w.
Proof. unfold mapHere. destruct sourceFile; [destruct (_ || _)|]; reflexivity. Qed.

Lemma mapHere_column i brk w sl sc :
  _currentColumn (mapHere sourceFile len lastLineBreak i brk w sl sc) = _currentColumn w.
Proof. unfold mapHere. destruct sourceFile; [destruct (_ || _)|]; reflexivity. Qed.

Lemma lineBreak_base w :
  base (lineBreak w)
  = Writer.setContent (base w) (content w +:+ indentString w).
Proof.
  unfold lineBreak, content, indentString, nonEmpty. cbn [base].
  destruct (String.eqb_spec (Writer.indentString (base w)) "") as [->|]; cbn [negb]; [|done].
  rewrite append_empty_r. by destruct (base w).
Qed.

(** The text written by the loop is the text of the inherited
    [Writer.write]: every character is kept and every line break is followed
    by the indentation. *)
Lemma writeLoop_base rest : ∀ i w sl sc,
  base (writeLoop sourceFile len lastLineBreak i rest w sl sc)
  = Writer.setContent (base w)
      (content w +:+ insertIndent (indentString w) rest).
Proof.
  induction rest as [|ch rest H IH|ch rest H1 H2 IH|ch rest H IH] using break_ind;
    intros i w sl sc.
  - cbn. rewrite append_empty_r. unfold content. by destruct (base w).
  - rewrite writeLoop_crlf, insertIndent_crlf, IH by done.
    unfold content, indentString. rewrite !mapHere_base, lineBreak_base.
    unfold content, indentString, appendChar, snoc, content. cbn.
    by rewrite !append_assoc.
  - rewrite writeLoop_break, insertIndent_break, IH by done.
    unfold content, indentString. rewrite !mapHere_base, lineBreak_base.
    unfold content, indentString, appendChar, snoc, content. cbn.
    by rewrite !append_assoc.
  - rewrite writeLoop_char, insertIndent_char, IH by done.
    unfold content, indentString. rewrite !mapHere_base.
    unfold appendChar, snoc, content. cbn.
    by rewrite !append_assoc.
Qed.

Lemma writeLoop_indentString rest i w sl sc :
  indentString (writeLoop sourceFile len lastLineBreak i rest w sl sc) = indentString w.
Proof. unfold indentString. by rewrite writeLoop_base. Qed.

(** Every line break, and nothing else, advances the generated line. *)
Lemma writeLoop_line rest : ∀ i w sl sc,
  _currentLine (writeLoop sourceFile len lastLineBreak i rest w sl sc)
  = _currentLine w + lineBreaks rest.
Proof.
  induction rest as [|ch rest H IH|ch rest H1 H2 IH|ch rest H IH] using break_ind;
    intros i w sl sc.
  - cbn. lia.
  - rewrite writeLoop_crlf, lineBreaks_crlf, IH, mapHere_line by done. cbn. lia.
  - rewrite writeLoop_break, lineBreaks_break, IH, mapHere_line by done. cbn. lia.
  - rewrite writeLoop_char, lineBreaks_char, IH, mapHere_line by done. cbn. lia.
Qed.

(** Inside the loop the column only changes at a line break, where it
    becomes the length of the indentation. *)
Lemma writeLoop_column rest : ∀ i w sl sc,
  _currentColumn (writeLoop sourceFile len lastLineBreak i rest w sl sc)
  = if lineBreaks rest =? 0 then _currentColumn w else indentLength w.
Proof.
  induction rest as [|ch rest H IH|ch rest H1 H2 IH|ch rest H IH] using break_ind;
    intros i w sl sc.
  - done.
  - rewrite writeLoop_crlf, lineBreaks_crlf, IH, mapHere_column by done.
    pose proof (lineBreaks_nonneg rest).
    destruct (Z.eqb_spec (1 + lineBreaks rest) 0); [lia|].
    unfold indentLength, indentString. rewrite mapHere_base, lineBreak_base.
    by destruct (lineBreaks rest =? 0).
  - rewrite writeLoop_break, lineBreaks_break, IH, mapHere_column by done.
    pose proof (lineBreaks_nonneg rest).
    destruct (Z.eqb_spec (1 + lineBreaks rest) 0); [lia|].
    unfold indentLength, indentString. rewrite mapHere_base, lineBreak_base.
    by destruct (lineBreaks rest =? 0).
  - rewrite writeLoop_char, lineBreaks_char, IH, mapHere_column by done.
    unfold indentLength, indentString. by rewrite mapHere_base.
Qed.

End Cursor.

(** A write without origin never touches the source-map builder. *)
Lemma writeLoop_no_origin len lastLineBreak rest : ∀ i w sl sc,
  SourceMapWriter._sourceMapBuilder
    (SourceMapWriter.writeLoop None len lastLineBreak i rest w sl sc)
  = SourceMapWriter._sourceMapBuilder w.
Proof.
  induction rest as [|ch rest H IH|ch rest H1 H2 IH|ch rest H IH] using break_ind;
    intros i w sl sc.
  - done.
  - by rewrite writeLoop_crlf, IH.
  - by rewrite writeLoop_break, IH.
  - by rewrite writeLoop_char, IH.
Qed.

(** ** The last line break and the rendered column *)

Lemma length_append (a b : string) :
  String.length (a +:+ b) = (String.length a + String.length b)%nat.
Proof.
  induction a as [|x a IH]; [done|]. rewrite append_cons. cbn [String.length]. by rewrite IH.
Qed.

Lemma get_append_l (s t : string) (k : nat) :
  (k < String.length s)%nat → String.get k (s +:+ t) = String.get k s.
Proof. intros H. symmetry. by apply append_correct1. Qed.

Lemma get_append_here (s : string) (ch : ascii) (t : string) :
  String.get (String.length s) (s +:+ String ch t) = Some ch.
Proof.
  pose proof (append_correct2 s (String ch t) 0) as H. cbn in H. by rewrite <-H.
Qed.

(** Induction on a text from its end. *)
Lemma string_snoc_ind (P : string → Prop) :
  P "" → (∀ s ch, P s → P (snoc s ch)) → ∀ s, P s.
Proof.
  intros Hnil Hsnoc.
  assert (Hsplit : ∀ s ch, ∃ s' ch', String ch s = snoc s' ch'
                                     ∧ String.length s' = String.length s).
  { induction s as [|c s IH]; intros ch.
    - by exists "", ch.
    - destruct (IH c) as (s' & ch' & E & El). exists (String ch s'), ch'.
      unfold snoc. rewrite append_cons. unfold snoc in E. rewrite <-E.
      split; [done|]. cbn [String.length]. by rewrite El. }
  assert (H : ∀ n s, String.length s = n → P s).
  { induction n as [|n IH]; intros s Hs.
    - by destruct s.
    - destruct s as [|ch s]; [done|].
      destruct (Hsplit s ch) as (s' & ch' & -> & El).
      apply Hsnoc, IH. cbn in Hs. lia. }
  intros s. by apply (H (String.length s)).
Qed.

Lemma findLastLineBreak_append (s t : string) (n : nat) :
  (n <= String.length s)%nat →
  SourceMapWriter.findLastLineBreak (s +:+ t) n = SourceMapWriter.findLastLineBreak s n.
Proof.
  induction n as [|n IH]; intros Hn; cbn [SourceMapWriter.findLastLineBreak]; [done|].
  rewrite get_append_l by lia. rewrite IH by lia. done.
Qed.

Lemma findLastLineBreak_snoc (s : string) (ch : ascii) :
  SourceMapWriter.findLastLineBreak (snoc s ch) (String.length (snoc s ch))
  = if isBreak ch then strlen s
    else SourceMapWriter.findLastLineBreak s (String.length s).
Proof.
  unfold snoc. rewrite length_append. cbn [String.length].
  replace (String.length s + 1)%nat with (S (String.length s)) by lia.
  cbn [SourceMapWriter.findLastLineBreak]. rewrite get_append_here.
  fold (isBreak ch). destruct (isBreak ch); [done|].
  by apply findLastLineBreak_append.
Qed.

Lemma renderedColumnFrom_snoc (s : string) (ch : ascii) : ∀ acc,
  renderedColumnFrom acc (snoc s ch)
  = if isBreak ch then 0 else renderedColumnFrom acc s + 1.
Proof.
  unfold snoc. induction s as [|c s IH]; intros acc.
  - rewrite append_empty_l. cbn [renderedColumnFrom]. by destruct (isBreak ch).
  - rewrite append_cons. cbn [renderedColumnFrom]. by destruct (isBreak c).
Qed.

Lemma hasBreak_snoc (s : string) (ch : ascii) :
  hasBreak (snoc s ch) = hasBreak s || isBreak ch.
Proof.
  unfold snoc. induction s as [|c s IH].
  - rewrite append_empty_l. cbn [hasBreak]. by rewrite orb_false_r.
  - rewrite append_cons. cbn [hasBreak]. by rewrite IH, orb_assoc.
Qed.

Lemma strlen_snoc (s : string) (ch : ascii) : strlen (snoc s ch) = strlen s + 1.
Proof. unfold snoc. rewrite strlen_append. done. Qed.

Lemma strlen_nonneg (s : string) : 0 <= strlen s.
Proof. unfold strlen. lia. Qed.

(** [lastLineBreak] is -1 for a text without line break; else the text has
    [content.length - lastLineBreak - 1] characters after its last line
    break. *)
Lemma findLastLineBreak_rendered (s : string) :
  let lastLineBreak := SourceMapWriter.findLastLineBreak s (String.length s) in
  if hasBreak s
  then 0 <= lastLineBreak ∧ renderedColumn s = strlen s - lastLineBreak - 1
  else lastLineBreak = -1 ∧ renderedColumn s = strlen s.
Proof.
  cbv zeta. unfold renderedColumn.
  induction s as [|s ch IH] using string_snoc_ind; [done|].
  rewrite findLastLineBreak_snoc, renderedColumnFrom_snoc, hasBreak_snoc, strlen_snoc.
  pose proof (strlen_nonneg s).
  destruct (isBreak ch); [rewrite orb_true_r; lia|]. rewrite orb_false_r.
  destruct (hasBreak s); lia.
Qed.

Lemma lineBreaks_hasBreak (s : string) : (lineBreaks s =? 0) = negb (hasBreak s).
Proof.
  induction s as [|ch rest H IH|ch rest H1 H2 IH|ch rest H IH] using break_ind.
  - done.
  - rewrite lineBreaks_crlf by done. cbn [hasBreak]. rewrite (isBreak_CR _ H). cbn.
    pose proof (lineBreaks_nonneg rest). by destruct (Z.eqb_spec (1 + lineBreaks rest) 0); [lia|].
  - rewrite lineBreaks_break by done. cbn [hasBreak]. rewrite H1. cbn.
    pose proof (lineBreaks_nonneg rest). by destruct (Z.eqb_spec (1 + lineBreaks rest) 0); [lia|].
  - rewrite lineBreaks_char by done. cbn [hasBreak]. by rewrite H.
Qed.

(** ** The sources list *)

Lemma indexOf_Some p l k : indexOf p l = Some k → l !! k = Some p.
Proof.
  revert k. induction l as [|q l IH]; intros k; cbn; [done|].
  case_decide as E.
  - intros [= <-]. by rewrite E.
  - destruct (indexOf p l) as [k'|]; cbn; [|done]. intros [= <-]. by apply IH.
Qed.


Lemma indexOf_snoc p l : indexOf p l = None → indexOf p (l ++ [p]) = Some (length l).
Proof.
  induction l as [|q l IH]; cbn.
  - by rewrite decide_True.
  - case_decide; [done|]. destruct (indexOf p l); cbn; [done|].
    intros _. by rewrite IH.
Qed.

Lemma addSource_mappings b p : mappings (addSource b p).2 = mappings b.
Proof. unfold addSource. by destruct (indexOf p (sources b)). Qed.

Lemma addSource_file b p : file (addSource b p).2 = file b.
Proof. unfold addSource. by destruct (indexOf p (sources b)). Qed.

Lemma addSource_prefix b p : sources b `prefix_of` sources (addSource b p).2.
Proof.
  unfold addSource. destruct (indexOf p (sources b)); cbn; [done|].
  by apply prefix_app_r.
Qed.

Lemma addSource_indexOf b p :
  indexOf p (sources (addSource b p).2) = Some (Z.to_nat (addSource b p).1).
Proof.
  unfold addSource. destruct (indexOf p (sources b)) as [k|] eqn:E; cbn.
  - by rewrite E, Nat2Z.id.
  - by rewrite indexOf_snoc, Nat2Z.id.
Qed.

Lemma addSource_nonneg b p : 0 <= (addSource b p).1.
Proof. unfold addSource. destruct (indexOf p (sources b)); cbn; lia. Qed.

(** The index that [addSource] returns holds the path. *)
Lemma addSource_resolves b p : resolves (addSource b p).2 (addSource b p).1 p.
Proof.
  split; [apply addSource_nonneg|].
  apply indexOf_Some, addSource_indexOf.
Qed.

(** [addSource] only looks at the sources list. *)
Lemma addSource_known b b' p :
  sources b' = sources (addSource b p).2 →
  (addSource b' p).1 = (addSource b p).1 ∧ sources (addSource b' p).2 = sources b'.
Proof.
  intros E. pose proof (addSource_indexOf b p) as H. rewrite <-E in H.
  pose proof (addSource_nonneg b p).
  unfold addSource at 1 3. rewrite H. cbn. split; [lia|done].
Qed.

Lemma addSource_same_sources b b' p :
  sources b' = sources b →
  (addSource b' p).1 = (addSource b p).1
  ∧ sources (addSource b' p).2 = sources (addSource b p).2.
Proof.
  intros E. unfold addSource. rewrite E.
  destruct (indexOf p (sources b)); cbn; by rewrite ?E.
Qed.

Lemma resolves_prefix b b' k p :
  sources b `prefix_of` sources b' → resolves b k p → resolves b' k p.
Proof.
  intros Hpre [H0 H]. split; [done|]. by eapply prefix_lookup_Some.
Qed.

Lemma resolves_sourceAt b k p : resolves b k p → sourceAt (sources b) k = p.
Proof.
  intros [H0 H]. unfold sourceAt. destruct (Z.ltb_spec k 0); [lia|]. by rewrite H.
Qed.

(** ** Lines of the mapping table *)

Lemma lookup_setLineMappings b line l j :
  mappings (setLineMappings b line l) !! j
  = if decide (j = line) then Some l else mappings b !! j.
Proof.
  cbn. rewrite lookup_insert. repeat case_decide; congruence.
Qed.

Lemma lineMappings_setLineMappings b line l j :
  lineMappings (setLineMappings b line l) j
  = if decide (j = line) then l else lineMappings b j.
Proof.
  unfold lineMappings. rewrite lookup_setLineMappings. by case_decide.
Qed.

Lemma lineMappings_addSource b p j : lineMappings (addSource b p).2 j = lineMappings b j.
Proof. unfold lineMappings. by rewrite addSource_mappings. Qed.

(** ** Writes whose origin has no source map of its own *)

Section Leaf.

Import SourceMapWriter.

Variables (f : File) (len lastLineBreak : Z).
Hypothesis leaf : sourceMapBuilder f = None.

Local Abbreviation p := (Some (originPath f)).

Lemma addMappings_leaf i w sl sc :
  _sourceMapBuilder (addMappings f len lastLineBreak i w sl sc)
  = setLineMappings (addSource (_sourceMapBuilder w) p).2 (_currentLine w)
      (lineMappings (_sourceMapBuilder w) (_currentLine w)
       ++ [lineHead (_currentColumn w) (addSource (_sourceMapBuilder w) p).1 sl sc]).
Proof. unfold addMappings. by rewrite leaf. Qed.

Lemma leaf_break_step rest text i i1 i2 w wb sl sc :
  (∀ i w sl sc, 0 <= i →
     leafResult f rest i w sl sc
       (_sourceMapBuilder (writeLoop (Some f) len lastLineBreak i rest w sl sc))) →
  0 < i2 →
  _sourceMapBuilder wb = _sourceMapBuilder w →
  _currentLine wb = _currentLine w + 1 →
  _currentColumn wb = indentLength w →
  indentLength wb = indentLength w →
  startsMidLine text = false →
  lineBreaks text = 1 + lineBreaks rest →
  leafResult f text i w sl sc
    (_sourceMapBuilder
       (writeLoop (Some f) len lastLineBreak i2 rest
          (mapHere (Some f) len lastLineBreak i1 true wb (sl + 1) 0) (sl + 1) 0)).
Proof.
  intros IH Hi2 Eb El Ec Ei Hmid Hn.
  pose proof (lineBreaks_nonneg rest) as Hnn.
  set (w2 := mapHere (Some f) len lastLineBreak i1 true wb (sl + 1) 0).
  assert (Eb2 : _sourceMapBuilder w2
                = setLineMappings (addSource (_sourceMapBuilder w) p).2 (_currentLine w + 1)
                    (lineMappings (_sourceMapBuilder w) (_currentLine w + 1)
                     ++ [lineHead (indentLength w) (addSource (_sourceMapBuilder w) p).1 (sl + 1) 0])).
  { unfold w2, mapHere. cbn [orb]. by rewrite addMappings_leaf, Eb, El, Ec. }
  assert (El2 : _currentLine w2 = _currentLine w + 1).
  { unfold w2. by rewrite mapHere_line. }
  assert (Ei2 : indentLength w2 = indentLength w).
  { rewrite <-Ei. unfold w2, indentLength, indentString. by rewrite mapHere_base. }
  destruct (addSource_known (_sourceMapBuilder w) (_sourceMapBuilder w2) p) as [Ek1 Ek2].
  { by rewrite Eb2. }
  destruct (IH i2 w2 (sl + 1) 0 ltac:(lia)) as (IH1 & IH2 & IH3).
  destruct (Z.eqb_spec i2 0) as [?|_]; [lia|].
  split; [|split].
  - intros j. rewrite IH1. unfold leafEntries, startEntries, breakEntries.
    rewrite Hmid, andb_false_r, El2, Ei2, Ek1, Hn. cbn [andb app].
    unfold extendLine.
    repeat case_bool_decide; try lia; cbn [app].
    + rewrite Eb2, lineMappings_setLineMappings, lineMappings_addSource.
      case_decide; [lia|]. do 3 f_equal. unfold lineHead. f_equal. lia.
    + rewrite Eb2, lookup_setLineMappings. case_decide; [|lia].
      subst j. do 3 f_equal. unfold lineHead. f_equal. lia.
    + rewrite Eb2, lookup_setLineMappings, addSource_mappings.
      case_decide; [lia|done].
  - rewrite IH2, Hn, Ek2, Eb2. cbn [andb orb].
    destruct (Z.ltb_spec 0 (1 + lineBreaks rest)); [|lia].
    rewrite orb_true_r. by destruct (0 <? lineBreaks rest).
  - rewrite IH3, Eb2. cbn. apply addSource_file.
Qed.

Lemma writeLoop_leaf rest : ∀ i w sl sc,
  0 <= i →
  leafResult f rest i w sl sc
    (_sourceMapBuilder (writeLoop (Some f) len lastLineBreak i rest w sl sc)).
Proof.
  induction rest as [|ch rest H IH|ch rest H1 H2 IH|ch rest H IH] using break_ind;
    intros i w sl sc Hi.
  - cbn. split; [|by rewrite andb_false_r]. intros j.
    unfold leafEntries, startEntries, breakEntries. cbn.
    rewrite andb_false_r. cbn. case_bool_decide; [lia|done].
  - rewrite writeLoop_crlf by done.
    apply leaf_break_step; try done; try lia.
    + unfold indentLength, indentString. by rewrite lineBreak_base.
    + cbn. by rewrite (isBreak_CR _ H).
    + by apply lineBreaks_crlf.
  - rewrite writeLoop_break by done.
    apply leaf_break_step; try done; try lia.
    + unfold indentLength, indentString. by rewrite lineBreak_base.
    + cbn. by rewrite H1.
    + by apply lineBreaks_break.
  - rewrite writeLoop_char by done.
    pose proof (lineBreaks_nonneg rest) as Hnn.
    set (w2 := mapHere (Some f) len lastLineBreak i false (appendChar w ch) sl sc).
    assert (El2 : _currentLine w2 = _currentLine w).
    { unfold w2. by rewrite mapHere_line. }
    assert (Ec2 : _currentColumn w2 = _currentColumn w).
    { unfold w2. by rewrite mapHere_column. }
    assert (Ei2 : indentLength w2 = indentLength w).
    { unfold w2, indentLength, indentString. by rewrite mapHere_base. }
    destruct (IH (i + 1) w2 sl sc ltac:(lia)) as (IH1 & IH2 & IH3).
    destruct (Z.eqb_spec (i + 1) 0) as [?|_]; [lia|].
    unfold leafResult, leafEntries, startEntries, breakEntries in *.
    cbn [andb app] in IH1, IH2.
    rewrite lineBreaks_char by done. cbn [startsMidLine]. rewrite H. cbn [negb].
    rewrite El2, Ei2 in IH1.
    destruct (Z.eqb_spec i 0) as [->|Hne]; cbn [andb orb].
    + assert (Eb2 : _sourceMapBuilder w2
                = setLineMappings (addSource (_sourceMapBuilder w) p).2 (_currentLine w)
                    (lineMappings (_sourceMapBuilder w) (_currentLine w)
                     ++ [lineHead (_currentColumn w) (addSource (_sourceMapBuilder w) p).1 sl sc])).
      { unfold w2, mapHere. cbn [orb Z.eqb]. by rewrite addMappings_leaf. }
      destruct (addSource_known (_sourceMapBuilder w) (_sourceMapBuilder w2) p) as [Ek1 Ek2].
      { by rewrite Eb2. }
      rewrite Ek1 in IH1. rewrite Ek2 in IH2.
      split; [|split].
      * intros j. rewrite IH1. unfold extendLine.
        repeat case_bool_decide; try lia; cbn [app].
        -- rewrite Eb2, lineMappings_setLineMappings, lineMappings_addSource.
           case_decide; [lia|done].
        -- rewrite Eb2, lookup_setLineMappings. case_decide; [by subst|lia].
        -- rewrite Eb2, lookup_setLineMappings, addSource_mappings.
           case_decide; [lia|done].
      * rewrite IH2, Eb2. cbn. by destruct (0 <? lineBreaks rest).
      * rewrite IH3, Eb2. cbn. apply addSource_file.
    + assert (Eb2 : _sourceMapBuilder w2 = _sourceMapBuilder w).
      { unfold w2, mapHere. cbn [orb]. by destruct (Z.eqb_spec i 0). }
      rewrite Eb2 in IH1, IH2, IH3. done.
Qed.

End Leaf.

(** The table and the sources list after a write with a leaf origin. *)
Lemma write_leaf f w text sl sc :
  sourceMapBuilder f = None →
  leafResult f text 0 w sl sc
    (SourceMapWriter._sourceMapBuilder (SourceMapWriter.write w text (Some f) sl sc)).
Proof.
  intros leaf. unfold SourceMapWriter.write.
  cbn [SourceMapWriter._sourceMapBuilder SourceMapWriter.setColumn].
  by apply writeLoop_leaf.
Qed.

(** ** Counting the entries of the table *)

Lemma entryCount_setLineMappings b line l :
  entryCount (setLineMappings b line l)
  = entryCount b - Z.of_nat (length (lineMappings b line)) + Z.of_nat (length l).
Proof.
  unfold entryCount, lineMappings. cbn [mappings setLineMappings].
  assert (Hc : ∀ (m : gmap Z (list Mapping)) (j1 j2 : Z) (z1 z2 : list Mapping) (y : Z),
             j1 ≠ j2 → m !! j1 = Some z1 → m !! j2 = Some z2 →
             Z.of_nat (length z1) + (Z.of_nat (length z2) + y)
             = Z.of_nat (length z2) + (Z.of_nat (length z1) + y)) by (intros; lia).
  rewrite <-(insert_delete_eq (mappings b)).
  rewrite map_fold_insert_L; [|by apply Hc|by rewrite lookup_delete_eq].
  destruct (mappings b !! line) as [x|] eqn:E; cbn [default].
  - rewrite (map_fold_delete_L _ _ line x (mappings b)); [|by apply Hc|done].
    unfold id. lia.
  - rewrite delete_id by done. cbn. lia.
Qed.

Lemma entryCount_addSource b p : entryCount (addSource b p).2 = entryCount b.
Proof. unfold entryCount. by rewrite addSource_mappings. Qed.

Section LeafCount.

Import SourceMapWriter.

Variables (f : File) (len lastLineBreak : Z).
Hypothesis leaf : sourceMapBuilder f = None.

Lemma addMappings_leaf_count i w sl sc :
  entryCount (_sourceMapBuilder (addMappings f len lastLineBreak i w sl sc))
  = entryCount (_sourceMapBuilder w) + 1.
Proof.
  rewrite addMappings_leaf by done.
  rewrite entryCount_setLineMappings, lineMappings_addSource, entryCount_addSource.
  rewrite length_app. cbn [length]. lia.
Qed.

Lemma writeLoop_leaf_count rest : ∀ i w sl sc,
  0 <= i →
  entryCount (_sourceMapBuilder (writeLoop (Some f) len lastLineBreak i rest w sl sc))
  = entryCount (_sourceMapBuilder w)
    + (if (i =? 0) && startsMidLine rest then 1 else 0) + lineBreaks rest.
Proof.
  induction rest as [|ch rest H IH|ch rest H1 H2 IH|ch rest H IH] using break_ind;
    intros i w sl sc Hi.
  - cbn. rewrite andb_false_r. lia.
  - rewrite writeLoop_crlf, lineBreaks_crlf, IH by (done || lia).
    destruct (Z.eqb_spec (i + 1 + 1) 0); [lia|].
    cbn [andb startsMidLine mapHere orb]. rewrite (isBreak_CR _ H), andb_false_r.
    rewrite addMappings_leaf_count.
    cbn [_sourceMapBuilder lineBreak appendChar setBase]. lia.
  - rewrite writeLoop_break, lineBreaks_break, IH by (done || lia).
    destruct (Z.eqb_spec (i + 1) 0); [lia|].
    cbn [andb startsMidLine mapHere orb]. rewrite H1, andb_false_r.
    rewrite addMappings_leaf_count.
    cbn [_sourceMapBuilder lineBreak appendChar setBase]. lia.
  - rewrite writeLoop_char, lineBreaks_char, IH by (done || lia).
    destruct (Z.eqb_spec (i + 1) 0); [lia|].
    cbn [andb startsMidLine mapHere orb]. rewrite H. cbn [negb].
    destruct (Z.eqb_spec i 0); cbn [andb].
    + rewrite addMappings_leaf_count.
      cbn [_sourceMapBuilder appendChar setBase]. lia.
    + cbn [_sourceMapBuilder appendChar setBase]. lia.
Qed.

End LeafCount.

(** ** The cursor after a write *)

Section WriteCursor.

Import SourceMapWriter.

Variables (w : t) (text : string) (sourceFile : option File) (sl sc : Z).

Lemma write_base :
  base (write w text sourceFile sl sc)
  = Writer.setContent (base w) (content w +:+ insertIndent (indentString w) text).
Proof. unfold write. cbn [base setColumn]. apply writeLoop_base. Qed.

Lemma write_content :
  content (write w text sourceFile sl sc)
  = content w +:+ insertIndent (indentString w) text.
Proof.
  unfold write, content. cbn [base setColumn]. by rewrite writeLoop_base.
Qed.

Lemma write_line :
  _currentLine (write w text sourceFile sl sc) = _currentLine w + lineBreaks text.
Proof. unfold write. cbn [_currentLine setColumn]. apply writeLoop_line. Qed.

Lemma write_column :
  _currentColumn (write w text sourceFile sl sc)
  = strlen text
    + (if findLastLineBreak text (String.length text) <? 0
       then (if lineBreaks text =? 0 then _currentColumn w else indentLength w)
       else - findLastLineBreak text (String.length text) + indentLength w).
Proof.
  unfold write. cbn [_currentColumn setColumn]. rewrite writeLoop_column.
  unfold indentLength. by rewrite writeLoop_indentString.
Qed.

Lemma write_no_origin :
  _sourceMapBuilder (write w text None sl sc) = _sourceMapBuilder w.
Proof. unfold write. cbn [_sourceMapBuilder setColumn]. apply writeLoop_no_origin. Qed.

End WriteCursor.

Lemma startsMidLine_no_break text :
  text ≠ "" → lineBreaks text = 0 → startsMidLine text = true.
Proof.
  destruct text as [|ch rest]; [done|]. intros _ H0.
  destruct (isBreak ch) eqn:E; [exfalso|by cbn; rewrite E].
  pose proof (lineBreaks_nonneg rest).
  destruct (isCR ch && startsWithLF rest) eqn:E2.
  - apply andb_true_iff in E2 as [E2 E3].
    destruct rest as [|ch2 rest2]; [done|]. cbn in E3. apply isLF_eq in E3 as ->.
    rewrite lineBreaks_crlf in H0 by done. pose proof (lineBreaks_nonneg rest2). lia.
  - rewrite lineBreaks_break in H0 by done. lia.
Qed.

(** ** Writes whose origin carries a source map *)

Lemma elem_of_removelast (l : list Mapping) (e : Mapping) : e ∈ removelast l → e ∈ l.
Proof.
  induction l as [|x l IH]; [done|]. cbn [removelast].
  destruct l as [|y l']; [by intros ?%elem_of_nil|].
  intros [->|H]%elem_of_cons; [left|right; by apply IH].
Qed.

Lemma isLineHead_prefix f b b' e :
  sources b `prefix_of` sources b' → isLineHead f b e → isLineHead f b' e.
Proof. intros Hp [H1 H2]. split; [done|]. by eapply resolves_prefix. Qed.

Lemma isCopyOf_prefix sm b b' e m :
  sources b `prefix_of` sources b' → isCopyOf sm b e m → isCopyOf sm b' e m.
Proof.
  intros Hp (H1 & H2 & H3 & H4). repeat split; try done; try apply H4.
  all: by eapply resolves_prefix.
Qed.

Lemma isCopy_prefix f b b' e :
  sources b `prefix_of` sources b' → isCopy f b e → isCopy f b' e.
Proof.
  intros Hp (sm & l & m & H1 & H2 & H3). exists sm, l, m.
  split; [done|]. split; [done|]. by eapply isCopyOf_prefix.
Qed.

(** Every entry that the copying loop pushes is a faithful copy of an entry
    of the origin map. *)
Lemma copyMappings_copies sm len lastLineBreak i sc cc line entries : ∀ l b,
  (∀ m, m ∈ entries → m ∈ lineMappings sm line) →
  let r := SourceMapWriter.copyMappings sm len lastLineBreak i sc cc entries l b in
  sources b `prefix_of` sources r.2
  ∧ mappings r.2 = mappings b
  ∧ ∀ e, e ∈ r.1 →
         e ∈ l ∨ ∃ m, m ∈ lineMappings sm line ∧ column e = column m - sc + cc
                      ∧ isCopyOf sm r.2 e m.
Proof.
  induction entries as [|m entries IH]; intros l b Hin; cbn [SourceMapWriter.copyMappings].
  - cbn. split; [done|]. split; [done|]. intros e He. by left.
  - destruct ((i =? 0) && (column m <? sc)).
    { apply IH. intros m' Hm'. apply Hin. by right. }
    destruct ((i =? lastLineBreak) && _).
    { cbn. split; [done|]. split; [done|]. intros e He. by left. }
    set (newColumn := column m - sc + cc).
    set (r0 := addSource b (sourceAt (sources sm) (sourceIndex m))).
    set (l1 := if SourceMapWriter.lastColumnIs l newColumn then removelast l else l).
    destruct (IH (l1 ++ [copyOf m newColumn r0.1]) r0.2) as (Hp & Hm & He).
    { intros m' Hm'. apply Hin. by right. }
    cbv zeta. split; [|split].
    + etrans; [|exact Hp]. apply addSource_prefix.
    + rewrite Hm. apply addSource_mappings.
    + intros e Hin'. destruct (He e Hin') as [H|H]; [|by right].
      apply elem_of_app in H as [H|H].
      * left. unfold l1 in H. destruct (SourceMapWriter.lastColumnIs l newColumn); [|done].
        by apply elem_of_removelast.
      * apply list_elem_of_singleton in H as ->. right. exists m.
        split; [apply Hin; left|]. split; [done|].
        eapply isCopyOf_prefix; [exact Hp|].
        repeat split; try apply addSource_resolves.
Qed.

(** ** Where the entries of a write are placed *)

Lemma placedAt_prefix f b b' cc sl sc e :
  sources b `prefix_of` sources b' → placedAt f b cc sl sc e → placedAt f b' cc sl sc e.
Proof.
  intros Hp [(H1 & H2 & H3 & H4)|(sm & m & H1 & H2 & H3 & H4)].
  - left. repeat split; try done; by eapply isLineHead_prefix.
  - right. exists sm, m. repeat split; try done; try apply H4.
    all: eapply resolves_prefix; [exact Hp|apply H4].
Qed.

Section Placed.

Import SourceMapWriter.

Variables (f : File) (len lastLineBreak : Z).

Lemma addMappings_placed i w sl sc :
  let b := _sourceMapBuilder w in
  let b' := _sourceMapBuilder (addMappings f len lastLineBreak i w sl sc) in
  sources b `prefix_of` sources b'
  ∧ ∀ j e, e ∈ lineMappings b' j →
           e ∈ lineMappings b j
           ∨ (j = _currentLine w ∧ placedAt f b' (_currentColumn w) sl sc e).
Proof.
  cbv zeta. unfold addMappings. cbn [_sourceMapBuilder setBuilder].
  set (b := _sourceMapBuilder w).
  set (r := addSource b (Some (originPath f))).
  set (l := lineMappings b (_currentLine w) ++ _).
  assert (Hc : ∃ c : list Mapping * SourceMapBuilder,
             (match sourceMapBuilder f with
              | Some srcSourceMap =>
                  copyMappings srcSourceMap len lastLineBreak i sc (_currentColumn w)
                    (lineMappings srcSourceMap sl) l r.2
              | None => (l, r.2)
              end) = c
             ∧ sources r.2 `prefix_of` sources c.2
             ∧ mappings c.2 = mappings r.2
             ∧ ∀ e, e ∈ c.1 →
                    e ∈ l
                    ∨ ∃ sm m, sourceMapBuilder f = Some sm ∧ m ∈ lineMappings sm sl
                              ∧ column e = column m - sc + _currentColumn w
                              ∧ isCopyOf sm c.2 e m).
  { destruct (sourceMapBuilder f) as [sm|] eqn:E.
    - eexists. split; [done|].
      destruct (copyMappings_copies sm len lastLineBreak i sc (_currentColumn w) sl
                  (lineMappings sm sl) l r.2 ltac:(done)) as (H1 & H2 & H3).
      split; [done|]. split; [done|]. intros e He.
      destruct (H3 e He) as [?|(m & Hm & Hcol & Hcp)]; [by left|right].
      by exists sm, m.
    - eexists. split; [done|]. cbn. split; [done|]. split; [done|]. intros e He. by left. }
  destruct Hc as (c & -> & Hp & Hm & He).
  split.
  - cbn. etrans; [|exact Hp]. apply addSource_prefix.
  - intros j e. rewrite lineMappings_setLineMappings. case_decide as Ej.
    + subst j. intros Hin. destruct (He e Hin) as [H|H].
      * apply elem_of_app in H as [H|H]; [by left|].
        apply list_elem_of_singleton in H as ->. right. split; [done|]. left.
        do 3 (split; [done|]). split; [done|]. cbn [sourceIndex].
        eapply resolves_prefix; [|apply addSource_resolves]. exact Hp.
      * right. split; [done|]. by right.
    + unfold lineMappings. rewrite Hm. unfold r. rewrite addSource_mappings. by left.
Qed.

Lemma placed_break_step rest text i i1 i2 w wb sl sc :
  (∀ i w sl sc, 0 <= i →
     cursorResult f rest i w sl sc
       (_sourceMapBuilder (writeLoop (Some f) len lastLineBreak i rest w sl sc))) →
  0 < i2 →
  _sourceMapBuilder wb = _sourceMapBuilder w →
  _currentLine wb = _currentLine w + 1 →
  _currentColumn wb = indentLength w →
  indentLength wb = indentLength w →
  startsMidLine text = false →
  lineBreaks text = 1 + lineBreaks rest →
  cursorResult f text i w sl sc
    (_sourceMapBuilder
       (writeLoop (Some f) len lastLineBreak i2 rest
          (mapHere (Some f) len lastLineBreak i1 true wb (sl + 1) 0) (sl + 1) 0)).
Proof.
  intros IH Hi2 Eb El Ec Ei Hmid Hn.
  pose proof (lineBreaks_nonneg rest) as Hnn.
  set (w2 := mapHere (Some f) len lastLineBreak i1 true wb (sl + 1) 0).
  destruct (addMappings_placed i1 wb (sl + 1) 0) as [Hp2 H2].
  change (addMappings f len lastLineBreak i1 wb (sl + 1) 0) with w2 in Hp2, H2.
  rewrite Eb in Hp2, H2. rewrite El, Ec in H2.
  assert (El2 : _currentLine w2 = _currentLine w + 1).
  { unfold w2. by rewrite mapHere_line. }
  assert (Ei2 : indentLength w2 = indentLength w).
  { rewrite <-Ei. unfold w2, indentLength, indentString. by rewrite mapHere_base. }
  destruct (IH i2 w2 (sl + 1) 0 ltac:(lia)) as [Hp H]. fold w2.
  rewrite El2, Ei2 in H.
  destruct (Z.eqb_spec i2 0) as [?|_]; [lia|]. cbn [andb] in H.
  set (b' := _sourceMapBuilder (writeLoop (Some f) len lastLineBreak i2 rest w2 (sl + 1) 0)) in *.
  split; [by etrans|].
  intros j e He. rewrite Hmid, andb_false_r, Hn.
  destruct (H j e He) as [H0|[(? & _)|(Hj & Hpl)]]; [|done|].
  - destruct (H2 j e H0) as [?|(-> & Hpl)]; [by left|].
    right; right. split; [lia|].
    replace (sl + (_currentLine w + 1 - _currentLine w)) with (sl + 1) by lia.
    by eapply placedAt_prefix.
  - right; right. split; [lia|].
    by replace (sl + (j - _currentLine w)) with (sl + 1 + (j - (_currentLine w + 1))) by lia.
Qed.

Lemma writeLoop_placed rest : ∀ i w sl sc,
  0 <= i →
  cursorResult f rest i w sl sc
    (_sourceMapBuilder (writeLoop (Some f) len lastLineBreak i rest w sl sc)).
Proof.
  induction rest as [|ch rest H IH|ch rest H1 H2 IH|ch rest H IH] using break_ind;
    intros i w sl sc Hi.
  - split; [done|]. intros j e He. by left.
  - rewrite writeLoop_crlf by done.
    apply (placed_break_step rest); try done; try lia.
    + unfold indentLength, indentString. by rewrite lineBreak_base.
    + cbn. by rewrite (isBreak_CR _ H).
    + by apply lineBreaks_crlf.
  - rewrite writeLoop_break by done.
    apply (placed_break_step rest); try done; try lia.
    + unfold indentLength, indentString. by rewrite lineBreak_base.
    + cbn. by rewrite H1.
    + by apply lineBreaks_break.
  - rewrite writeLoop_char by done.
    set (w2 := mapHere (Some f) len lastLineBreak i false (appendChar w ch) sl sc).
    assert (El2 : _currentLine w2 = _currentLine w).
    { unfold w2. by rewrite mapHere_line. }
    assert (Ei2 : indentLength w2 = indentLength w).
    { unfold w2, indentLength, indentString. by rewrite mapHere_base. }
    destruct (IH (i + 1) w2 sl sc ltac:(lia)) as [Hp Hall].
    rewrite El2, Ei2 in Hall.
    destruct (Z.eqb_spec (i + 1) 0) as [?|_]; [lia|]. cbn [andb] in Hall.
    set (b' := _sourceMapBuilder (writeLoop (Some f) len lastLineBreak (i + 1) rest w2 sl sc))
      in *.
    assert (H2 : sources (_sourceMapBuilder w) `prefix_of` sources (_sourceMapBuilder w2)
                 ∧ ∀ j e, e ∈ lineMappings (_sourceMapBuilder w2) j →
                          e ∈ lineMappings (_sourceMapBuilder w) j
                          ∨ (i = 0 ∧ j = _currentLine w
                             ∧ placedAt f (_sourceMapBuilder w2) (_currentColumn w) sl sc e)).
    { unfold w2, mapHere. cbn [orb]. destruct (Z.eqb_spec i 0) as [->|].
      - destruct (addMappings_placed 0 (appendChar w ch) sl sc) as [Hq Hr].
        split; [exact Hq|]. intros j e He.
        destruct (Hr j e He) as [?|(? & ?)]; [by left|by right].
      - split; [done|]. intros j e He. by left. }
    destruct H2 as [Hp2 H2].
    split; [by etrans|].
    intros j e He. rewrite lineBreaks_char by done. cbn [startsMidLine]. rewrite H. cbn [negb].
    destruct (Hall j e He) as [H0|[(? & _)|(Hj & Hpl)]]; [|done|].
    + destruct (H2 j e H0) as [?|(-> & -> & Hpl)]; [by left|].
      right; left. split; [done|]. split; [done|]. by eapply placedAt_prefix.
    + right; right. by split.
Qed.

End Placed.

(** The entries after a write from the file [f]. *)
Lemma write_placed f w text sl sc :
  cursorResult f text 0 w sl sc
    (SourceMapWriter._sourceMapBuilder (SourceMapWriter.write w text (Some f) sl sc)).
Proof.
  unfold SourceMapWriter.write.
  cbn [SourceMapWriter._sourceMapBuilder SourceMapWriter.setColumn].
  by apply writeLoop_placed.
Qed.



(** ** A second stage over a map with one entry per line head *)



Section Stage2.

Import SourceMapWriter.

Variables (f : File) (sm : SourceMapBuilder) (len lastLineBreak : Z) (pO : option string).
Hypothesis Hf : sourceMapBuilder f = Some sm.
Hypothesis Hllb : lastLineBreak < len.





End Stage2.





(** ** The growable buffer *)

Lemma blen_replicate (n : Z) (x : option Init.Byte.byte) :
  0 <= n → BufferStream.blen (replicate (Z.to_nat n) x) = n.
Proof. intros H. unfold BufferStream.blen. rewrite length_replicate. lia. Qed.

Lemma blen_nonneg (b : BufferStream.Buffer) : 0 <= BufferStream.blen b.
Proof. unfold BufferStream.blen. lia. Qed.

(** [copy] writes into the target: the target keeps its length. *)
Lemma blen_copy source target targetStart sourceStart sourceEnd :
  0 <= targetStart → 0 <= sourceStart →
  BufferStream.blen (BufferStream.copy source target targetStart sourceStart sourceEnd)
  = BufferStream.blen target.
Proof.
  intros Ht Hs. unfold BufferStream.copy.
  set (n := Z.min _ _).
  destruct (Z.leb_spec n 0) as [|Hn]; [done|].
  unfold BufferStream.blen in *.
  rewrite !length_app, !length_take, !length_drop. lia.
Qed.

Lemma allocUnsafe_Some (size : Z) :
  0 <= size → BufferStream.allocUnsafe size = Some (replicate (Z.to_nat size) None).
Proof. intros H. unfold BufferStream.allocUnsafe. by destruct (Z.ltb_spec size 0); [lia|]. Qed.

Lemma capacity_create f : BufferStream.capacity (BufferStream.create f) = 131072.
Proof. unfold BufferStream.capacity, BufferStream.create. cbn [BufferStream._buffer]. by rewrite blen_replicate. Qed.

(** What [ensureCapacity] does to the capacity: nothing when the request is
    below it, else the new capacity is the smaller of the request and
    [2 * capacity - 1]. *)
Lemma ensureCapacity_capacity s n :
  0 < BufferStream.capacity s →
  ∃ s', BufferStream.ensureCapacity s n = Some s'
        ∧ BufferStream._length s' = BufferStream._length s
        ∧ BufferStream.capacity s'
          = (if n <? BufferStream.capacity s then BufferStream.capacity s
             else Z.min n (BufferStream.capacity s * 2 - 1)).
Proof.
  unfold BufferStream.capacity, BufferStream.ensureCapacity. intros Hc.
  destruct (Z.ltb_spec n (BufferStream.blen (BufferStream._buffer s))) as [|Hn]; [by eexists|].
  rewrite allocUnsafe_Some by lia. cbn [mbind option_bind].
  eexists. split; [done|]. split; [done|]. cbn [BufferStream._buffer].
  rewrite blen_copy by lia. apply blen_replicate. lia.
Qed.

(** The capacity never shrinks. *)
Lemma ensureCapacity_monotone s n s' :
  0 < BufferStream.capacity s →
  BufferStream.ensureCapacity s n = Some s' →
  BufferStream.capacity s <= BufferStream.capacity s'.
Proof.
  intros Hc E. destruct (ensureCapacity_capacity s n Hc) as (s2 & E2 & _ & H).
  rewrite E in E2. injection E2 as <-. rewrite H.
  destruct (Z.ltb_spec n (BufferStream.capacity s)); lia.
Qed.

(** [_write] always adds the length of the chunk to the length, but the
    capacity it reaches is bounded by [2 * capacity - 1], whatever the chunk
    needs. *)
Lemma _write_length_capacity s chunk :
  0 < BufferStream.capacity s → 0 <= BufferStream._length s →
  ∃ s', BufferStream._write s chunk = Some s'
        ∧ BufferStream.length s' = BufferStream._length s + BufferStream.blen chunk
        ∧ BufferStream.capacity s'
          = (if BufferStream._length s + BufferStream.blen chunk <? BufferStream.capacity s
             then BufferStream.capacity s
             else Z.min (BufferStream._length s + BufferStream.blen chunk)
                    (BufferStream.capacity s * 2 - 1)).
Proof.
  intros Hc Hl. unfold BufferStream._write.
  destruct (ensureCapacity_capacity s (BufferStream._length s + BufferStream.blen chunk) Hc)
    as (s1 & E & El & Ec).
  rewrite E. cbn [mbind option_bind]. eexists. split; [done|].
  unfold BufferStream.length, BufferStream.capacity in *. cbn [BufferStream._length BufferStream._buffer].
  rewrite blen_copy by lia. rewrite El. done.
Qed.

(** Reading beyond the capacity yields cells that were never written. *)
Lemma toBuffer_beyond_capacity s e :
  0 < BufferStream.capacity s < e →
  ∃ r, BufferStream.toBuffer s 0 e = Some r
       ∧ r !! Z.to_nat (BufferStream.capacity s) = Some None.
Proof.
  unfold BufferStream.capacity, BufferStream.toBuffer. intros Hc.
  rewrite Z.sub_0_r, allocUnsafe_Some by lia. cbn [mbind option_bind].
  destruct (Z.ltb_spec 0 0) as [|_]; [lia|].
  destruct (Z.ltb_spec (BufferStream.blen (BufferStream._buffer s)) 0) as [|_]; [lia|].
  cbn [orb]. eexists. split; [done|].
  unfold BufferStream.copy. rewrite blen_replicate by lia.
  rewrite Z.sub_0_r, (Z.min_r e), Z.sub_0_r, (Z.min_l _ e) by lia.
  destruct (Z.leb_spec (BufferStream.blen (BufferStream._buffer s)) 0) as [|_]; [lia|].
  unfold BufferStream.blen in *.
  change (Z.to_nat 0) with 0%nat. rewrite take_0, drop_0, app_nil_l.
  rewrite lookup_app_r by (rewrite length_take; lia).
  rewrite length_take, lookup_drop, lookup_replicate.
  split; [done|]. lia.
Qed.

(** * The claims *)

Section Claims.

Import SourceMapWriter.

(** C10.  Writing the empty string is a no-op: whatever origin file, line and
    column come with it, the writer is left as it was -- nothing is appended
    to the content, the current line and column keep their values and the
    mapping table gets no entry.  The inherited [Writer.write] leaves its
    writer unchanged as well. *)
Theorem write_empty_noop :
  (∀ (w : t) (sourceFile : option File) (sourceLine sourceColumn : Z),
     write w "" sourceFile sourceLine sourceColumn = w)
  ∧ (∀ b : Writer.t, Writer.write b "" = b).
Proof.
  split.
  - intros [b m l c] sourceFile sl sc. unfold write. cbn. f_equal.
  - intros [f i c s]. unfold Writer.write, Writer.setContent. cbn.
    f_equal. destruct (nonEmpty i); cbn; apply append_empty_r.
Qed.

(** C4, as stated, fails: a CR LF pair and a lone CR reach the content as
    they are, not as a single LF. *)
Lemma newline_normalization_counterexample :
  let w := create target None in
  let text := "a" +:+ String CR (String LF ("b" +:+ String CR "c")) in
  content (write w text None 0 0) = text
  ∧ content (write w text None 0 0)
    ≠ content w +:+ normalized (indentString w) text.
Proof. cbv zeta. split; [by vm_compute|]. vm_compute. discriminate. Qed.

(** C4, amended.  Every line break of the input -- a CR LF pair, a lone CR
    or a lone LF -- is appended to the content with its own characters,
    followed by the characters of the indentation, and the other fields of
    the inherited writer are kept; each such break, the two-character pair
    included, advances the current line by exactly one.  The inherited
    [Writer.write] appends the same text whenever the indentation holds no
    [$]. *)
Theorem write_keeps_line_breaks (w : t) (text : string) (sourceFile : option File)
    (sourceLine sourceColumn : Z) :
  let w' := write w text sourceFile sourceLine sourceColumn in
  base w' = Writer.setContent (base w) (content w +:+ insertIndent (indentString w) text)
  ∧ content w' = content w +:+ insertIndent (indentString w) text
  ∧ _currentLine w' = _currentLine w + lineBreaks text
  ∧ (dollarFree (indentString w) = true → base w' = Writer.write (base w) text).
Proof.
  cbv zeta. split; [|split; [|split]].
  - apply write_base.
  - apply write_content.
  - apply write_line.
  - intros Hd. rewrite write_base. symmetry. by apply write_text.
Qed.

(** The text "a\r\nb\rc" written with one level of indentation (a tab): the
    pair and the lone CR are kept, each followed by the tab, as
    [Writer.write] does. *)
Lemma write_keeps_line_breaks_witness :
  let w := indent (create target None) in
  let text := "a" +:+ String CR (String LF ("b" +:+ String CR "c")) in
  let w' := write w text None 0 0 in
  dollarFree (indentString w) = true
  ∧ content w'
    = "a" +:+ String CR (String LF (String "009" ("b" +:+ String CR (String "009" "c"))))
  ∧ _currentLine w' = 2
  ∧ base w' = Writer.write (base w) text.
Proof.
  cbv zeta. split; [done|].
  destruct (write_keeps_line_breaks (indent (create target None))
              ("a" +:+ String CR (String LF ("b" +:+ String CR "c"))) None 0 0)
    as (_ & H2 & H3 & H4).
  split; [exact H2|]. split; [exact H3|]. apply H4. done.
Defined.

(** The table and the sources list after "abc\ndef" is written to a new
    writer from line 2, column 5 of a file without a map. *)
Lemma abc_def_leaf (out : File) (options : option WriterOptions) (p d : option string) :
  let f := leafFile p d in
  let b' := _sourceMapBuilder (write (create out options) abc_def (Some f) 2 5) in
  mappings b' = <[1 := [lineHead 0 0 3 0]]> {[0 := [lineHead 0 0 2 5]]}
  ∧ sources b' = [Some (originPath f)].
Proof.
  cbv zeta.
  destruct (write_leaf (leafFile p d) (create out options) abc_def 2 5 eq_refl)
    as (H1 & H2 & _).
  split.
  - apply map_eq. intros j. rewrite H1.
    destruct (decide (j = 0)) as [->|Hj0]; [by vm_compute|].
    destruct (decide (j = 1)) as [->|Hj1]; [by vm_compute|].
    rewrite lookup_insert_ne, lookup_singleton_ne by done.
    unfold leafEntries, startEntries, breakEntries.
    change (lineBreaks abc_def) with 1. cbn [create _currentLine].
    rewrite (bool_decide_eq_false_2 (j = 0)), andb_false_r by done.
    by rewrite bool_decide_eq_false_2 by lia.
  - rewrite H2. done.
Qed.

(** C6.  Every line break consumed by a write advances the generated line
    and the origin line by one, resets the origin column to 0 and sets the
    generated column to the length of the indentation: the entry that a write
    from a file without a map of its own emits after its [k]-th line break
    lies on generated line [_currentLine + k] at the column of the indentation
    and maps to origin line [sourceLine + k], column 0; and whatever the
    origin file, every entry that a write adds to the [k]-th line below the
    current one was placed with the generated column at the length of the
    indentation and the origin cursor at line [sourceLine + k], column 0 (the
    line-head entry, or the copy of an entry that the origin map holds for
    that origin line, moved by the indentation).  The source of a line-head
    entry is the path of the origin file: its [srcPath], or its [destPath]
    when it has no [srcPath], or the empty string (line 179).  Hence, on a
    fresh writer, writing "abc\ndef" with the origin (fileA, 2, 5) leaves
    exactly two entries: line 0, column 0, mapped to fileA:2:5, and line 1,
    column 0, mapped to fileA:3:0; for the file a.js both carry the source
    number 0, and the sources list is ["a.js"]. *)
Theorem origin_cursor_advance :
  (∀ (w : t) (text : string) (sourceFile : option File) (sourceLine sourceColumn : Z),
     _currentLine (write w text sourceFile sourceLine sourceColumn)
     = _currentLine w + lineBreaks text)
  ∧ (∀ (w : t) (text : string) (p d : option string) (sourceLine sourceColumn k : Z),
       0 < k <= lineBreaks text →
       let f := leafFile p d in
       let b' := _sourceMapBuilder (write w text (Some f) sourceLine sourceColumn) in
       let idx := (addSource (_sourceMapBuilder w) (Some (originPath f))).1 in
       lineMappings b' (_currentLine w + k)
       = lineMappings (_sourceMapBuilder w) (_currentLine w + k)
         ++ [lineHead (indentLength w) idx (sourceLine + k) 0]
       ∧ resolves b' idx (Some (originPath f)))
  ∧ (∀ (w : t) (text : string) (f : File) (sourceLine sourceColumn k : Z) (e : Mapping),
       let b' := _sourceMapBuilder (write w text (Some f) sourceLine sourceColumn) in
       0 < k →
       e ∈ lineMappings b' (_currentLine w + k) →
       e ∈ lineMappings (_sourceMapBuilder w) (_currentLine w + k)
       ∨ (k <= lineBreaks text
          ∧ placedAt f b' (indentLength w) (sourceLine + k) 0 e))
  ∧ (∀ (out : File) (options : option WriterOptions) (p d : option string),
       let f := leafFile p d in
       let b' := _sourceMapBuilder (write (create out options) abc_def (Some f) 2 5) in
       mappings b' = <[1 := [lineHead 0 0 3 0]]> {[0 := [lineHead 0 0 2 5]]}
       ∧ sources b' = [Some (originPath f)])
  ∧ ((∀ (f : File) (q : string), srcPath f = Some q → q ≠ "" → originPath f = q)
     ∧ (∀ (f : File) (q : string),
          srcPath f = None ∨ srcPath f = Some "" →
          destPath f = Some q → q ≠ "" → originPath f = q)
     ∧ (∀ f : File,
          srcPath f = None ∨ srcPath f = Some "" →
          destPath f = None ∨ destPath f = Some "" → originPath f = ""))
  ∧ (∀ (out : File) (options : option WriterOptions),
       let b' := _sourceMapBuilder (write (create out options) abc_def (Some fileA) 2 5) in
       mappings b' = <[1 := [lineHead 0 0 3 0]]> {[0 := [lineHead 0 0 2 5]]}
       ∧ sources b' = [Some "a.js"]
       ∧ ∀ j e, e ∈ lineMappings b' j →
                sourceAt (sources b') (sourceIndex e) = Some "a.js").
Proof.
  split; [|split; [|split; [|split; [|split]]]].
  - intros. apply write_line.
  - intros w text p d sl sc k Hk. cbv zeta.
    destruct (write_leaf (leafFile p d) w text sl sc eq_refl) as (H1 & H2 & _).
    split.
    + unfold lineMappings at 1. rewrite H1.
      unfold leafEntries, startEntries, breakEntries.
      rewrite (bool_decide_eq_false_2 (_currentLine w + k = _currentLine w)) by lia.
      rewrite andb_false_r, bool_decide_eq_true_2 by lia.
      cbn. do 2 f_equal. unfold lineHead. f_equal. lia.
    + destruct (Z.ltb_spec 0 (lineBreaks text)) as [_|?]; [|lia].
      rewrite orb_true_r in H2.
      eapply resolves_prefix; [|apply addSource_resolves]. by rewrite H2.
  - intros w text f sl sc k e. cbv zeta. intros Hk He.
    destruct (proj2 (write_placed f w text sl sc) _ e He)
      as [?|[(_ & ? & _)|(Hj & Hpl)]]; [by left|lia|right].
    split; [lia|].
    by replace (sl + (_currentLine w + k - _currentLine w)) with (sl + k) in Hpl by lia.
  - intros out options p d. apply abc_def_leaf.
  - split; [|split].
    + intros f q Hp Hq. unfold originPath, truthy, nonEmpty. rewrite Hp.
      by destruct (String.eqb_spec q "").
    + intros f q Hp Hd Hq. unfold originPath, truthy, nonEmpty. rewrite Hd.
      destruct Hp as [->| ->]; cbn; by destruct (String.eqb_spec q "").
    + intros f Hp Hd. unfold originPath, truthy, nonEmpty.
      by destruct Hp as [->| ->], Hd as [->| ->].
  - intros out options. cbv zeta.
    destruct (abc_def_leaf out options (Some "a.js") None) as [Hm Hs].
    fold fileA in Hm, Hs.
    split; [exact Hm|]. split; [exact Hs|].
    intros j e. unfold lineMappings. rewrite Hm, Hs.
    destruct (decide (j = 1)) as [->|Hj1].
    { rewrite lookup_insert_eq. cbn [default].
      by intros ->%list_elem_of_singleton. }
    rewrite lookup_insert_ne by done.
    destruct (decide (j = 0)) as [->|Hj0].
    { rewrite lookup_singleton_eq. cbn [default].
      by intros ->%list_elem_of_singleton. }
    rewrite lookup_singleton_ne by done. cbn [default].
    intros He. by apply elem_of_nil in He.
Qed.

(** The entry after the line break of "abc\ndef", written with one level of
    indentation: generated line 1, column 1, mapped to a.js:3:0, where the
    source number 0 holds the path "a.js"; and, for
    "x\nab" written from t.js:0:0 with one level of indentation, the copy of
    the entry that the map of t.js has at column 2 of its line 1, placed at
    column 3 of generated line 1. *)
Lemma origin_cursor_advance_witness :
  let e := {| column := 3; sourceIndex := 1; sourceLine := 20; sourceColumn := 2;
              nameIndex := None |} in
  let w := indent (create target None) in
  let b' := _sourceMapBuilder (write w x_ab (Some fileT) 0 0) in
  (0 < 1 <= lineBreaks abc_def
   ∧ lineMappings (_sourceMapBuilder (write w abc_def (Some fileA) 2 5)) (0 + 1)
     = [] ++ [lineHead 1 0 (2 + 1) 0]
   ∧ resolves (_sourceMapBuilder (write w abc_def (Some fileA) 2 5)) 0 (Some "a.js")
   ∧ sourceAt (sources (_sourceMapBuilder (write w abc_def (Some fileA) 2 5))) 0
     = Some "a.js")
  ∧ (0 < 1
     ∧ e ∈ lineMappings b' (0 + 1)
     ∧ (e ∈ lineMappings (_sourceMapBuilder w) (0 + 1)
        ∨ (1 <= lineBreaks x_ab ∧ placedAt fileT b' 1 (0 + 1) 0 e))).
Proof.
  cbv zeta. split.
  - split; [by vm_compute|].
    destruct (proj1 (proj2 origin_cursor_advance)
                (indent (create target None)) abc_def (Some "a.js") None 2 5 1
                ltac:(by vm_compute)) as [H1 H2].
    split; [exact H1|]. split; [exact H2|].
    exact (resolves_sourceAt _ _ _ H2).
  - split; [lia|].
    match goal with
    | |- ?e ∈ ?l ∧ _ => assert (H : e ∈ l)
    end.
    { match goal with
      | |- _ ∈ ?l =>
          replace l
            with [ {| column := 1; sourceIndex := 1; sourceLine := 20; sourceColumn := 0;
                      nameIndex := None |};
                   {| column := 3; sourceIndex := 1; sourceLine := 20; sourceColumn := 2;
                      nameIndex := None |} ] by (by vm_compute)
      end.
      right. left. }
    split; [exact H|].
    exact (proj1 (proj2 (proj2 origin_cursor_advance))
             (indent (create target None)) x_ab fileT 0 0 1 _ ltac:(lia) H).
Defined.

(** C5, as stated, fails: the empty text has no line break, and writing it
    with an origin emits no mapping entry at all. *)
Lemma mapping_emission_counterexample :
  let w := create target None in
  lineBreaks "" = 0
  ∧ entryCount (_sourceMapBuilder (write w "" (Some fileA) 0 0))
    ≠ entryCount (_sourceMapBuilder w) + 1.
Proof. cbv zeta. split; [done|]. by vm_compute. Qed.

(** C5, amended.  Mapping entries are emitted only when an origin file is
    given: a write without origin leaves the source-map builder untouched, and
    it moves the content, the current line and the current column exactly as
    the same write with an origin does.  A write whose origin file has no map
    of its own emits one entry at the start of its text -- unless the text is
    empty or begins with a line break -- and one entry after every line break,
    and nothing else; so it emits exactly one entry, on the current line at
    the current column, when its text is not empty and has no line break, and
    none when its text is empty. *)
Theorem mapping_emission :
  (∀ (w : t) (text : string) (sourceLine sourceColumn : Z),
     _sourceMapBuilder (write w text None sourceLine sourceColumn) = _sourceMapBuilder w)
  ∧ (∀ (w : t) (text : string) (f : File) (sourceLine sourceColumn sl' sc' : Z),
       let w1 := write w text None sl' sc' in
       let w2 := write w text (Some f) sourceLine sourceColumn in
       base w1 = base w2
       ∧ _currentLine w1 = _currentLine w2
       ∧ _currentColumn w1 = _currentColumn w2)
  ∧ (∀ (w : t) (text : string) (p d : option string) (sourceLine sourceColumn : Z),
       let f := leafFile p d in
       let b' := _sourceMapBuilder (write w text (Some f) sourceLine sourceColumn) in
       let idx := (addSource (_sourceMapBuilder w) (Some (originPath f))).1 in
       (∀ j, mappings b' !! j
             = extendLine (_sourceMapBuilder w) j
                 (leafEntries w true text idx sourceLine sourceColumn j))
       ∧ entryCount b'
         = entryCount (_sourceMapBuilder w)
           + (if startsMidLine text then 1 else 0) + lineBreaks text
       ∧ (text ≠ "" → lineBreaks text = 0 →
          entryCount b' = entryCount (_sourceMapBuilder w) + 1
          ∧ lineMappings b' (_currentLine w)
            = lineMappings (_sourceMapBuilder w) (_currentLine w)
              ++ [lineHead (_currentColumn w) idx sourceLine sourceColumn]
          ∧ resolves b' idx (Some (originPath f)))).
Proof.
  split; [|split].
  - intros. apply write_no_origin.
  - intros w text f sl sc sl' sc'. cbv zeta.
    by rewrite !write_base, !write_line, !write_column.
  - intros w text p d sl sc. cbv zeta.
    destruct (write_leaf (leafFile p d) w text sl sc eq_refl) as (H1 & H2 & _).
    assert (Hc : entryCount (_sourceMapBuilder (write w text (Some (leafFile p d)) sl sc))
                 = entryCount (_sourceMapBuilder w)
                   + (if startsMidLine text then 1 else 0) + lineBreaks text).
    { unfold write. cbn [_sourceMapBuilder setColumn].
      by rewrite writeLoop_leaf_count. }
    split; [done|]. split; [done|].
    intros Hne H0. pose proof (startsMidLine_no_break _ Hne H0) as Hmid.
    rewrite Hc, Hmid, H0. split; [lia|]. split.
    + unfold lineMappings at 1. rewrite H1.
      unfold leafEntries, startEntries, breakEntries.
      rewrite Hmid, H0, bool_decide_eq_true_2 by done.
      by rewrite bool_decide_eq_false_2 by lia.
    + rewrite Hmid in H2. cbn [Z.eqb andb orb] in H2.
      eapply resolves_prefix; [|apply addSource_resolves]. by rewrite H2.
Qed.

(** Writing "x" from a.js:7:3 after "ab" was written without origin: one
    entry, at column 2 of line 0. *)
Lemma mapping_emission_witness :
  let w := write (create target None) "ab" None 0 0 in
  let b' := _sourceMapBuilder (write w "x" (Some fileA) 7 3) in
  "x" ≠ "" ∧ lineBreaks "x" = 0
  ∧ entryCount b' = entryCount (_sourceMapBuilder w) + 1
  ∧ lineMappings b' 0 = [] ++ [lineHead 2 0 7 3]
  ∧ resolves b' 0 (Some "a.js").
Proof.
  cbv zeta. split; [done|]. split; [done|].
  apply (proj2 (proj2 (proj2 (proj2 mapping_emission)
           (write (create target None) "ab" None 0 0) "x" (Some "a.js") None 7 3))
           ltac:(done) ltac:(done)).
Defined.

(** C2: the code at the failing input.  On a fresh writer without
    indentation, after "a\nb" is written the text rendered on the last line
    is "b", one column wide, but the stored column is 2; the entry of the
    next write with an origin gets that generated column 2.  In general, after
    a write whose text has a line break the stored column is the length of
    the indentation plus the number of characters after the last line break
    plus one; without line break the length of the text is added to the
    column. *)
Theorem column_after_line_break :
  (let w1 := write (create target None) a_b None 0 0 in
   content w1 = a_b
   ∧ renderedColumn (content w1) = 1
   ∧ _currentColumn w1 = 2
   ∧ lineMappings (_sourceMapBuilder (write w1 "c" (Some fileA) 0 0)) 1
     = [lineHead 2 0 0 0])
  ∧ (∀ (w : t) (text : string) (sourceFile : option File) (sourceLine sourceColumn : Z),
       _currentColumn (write w text sourceFile sourceLine sourceColumn)
       = if hasBreak text then indentLength w + renderedColumn text + 1
         else _currentColumn w + strlen text).
Proof.
  split; [cbv zeta; by vm_compute|].
  intros w text sourceFile sl sc. rewrite write_column, lineBreaks_hasBreak.
  pose proof (findLastLineBreak_rendered text) as H. cbv zeta in H.
  destruct (hasBreak text); cbn [negb].
  - destruct H as [H1 H2].
    destruct (Z.ltb_spec (findLastLineBreak text (String.length text)) 0); lia.
  - destruct H as [-> H2]. cbn. lia.
Qed.

(** C3: the code at the failing input.  "ab" is written as the slice of
    line 0 of s.js that starts at column 1, so the write consumes the columns
    1 and 2 of that line.  The mapping point at column 0 is skipped, but the
    point at column 5, beyond the slice, is copied (to generated column 4):
    for a chunk without line break [lastLineBreak] is -1, which [i] never
    equals.  On the last line of a chunk with a line break the trim is
    applied, one column late: "x\nab" written from t.js:0:0 consumes the
    columns 0 and 1 of line 1 of t.js; the point at column 3 is dropped, the
    point at column 2, at the end of the slice, is copied. *)
Theorem single_line_chunk_not_trimmed :
  (let w1 := write (create target None) "ab" (Some fileS) 0 1 in
   findLastLineBreak "ab" 2 = -1
   ∧ lineMappings (_sourceMapBuilder w1) 0
     = [ lineHead 0 0 0 1;
         {| column := 4; sourceIndex := 1; sourceLine := 10; sourceColumn := 5;
            nameIndex := None |} ]
   ∧ sources (_sourceMapBuilder w1) = [Some "s.js"; Some "o.js"])
  ∧ (let w1 := write (create target None) x_ab (Some fileT) 0 0 in
     lineMappings (_sourceMapBuilder w1) 1
     = [ {| column := 0; sourceIndex := 1; sourceLine := 20; sourceColumn := 0;
            nameIndex := None |};
         {| column := 2; sourceIndex := 1; sourceLine := 20; sourceColumn := 2;
            nameIndex := None |} ]).
Proof. cbv zeta. split; by vm_compute. Qed.

(** C7: the code at the failing input.  After the write of C3, "c" is
    written from a.js: its entry lands at column 2, behind the entry that was
    copied to column 4, and line 0 is no longer in ascending order. *)
Theorem line_entries_not_ascending :
  let w1 := write (create target None) "ab" (Some fileS) 0 1 in
  let w2 := write w1 "c" (Some fileA) 0 0 in
  column <$> lineMappings (_sourceMapBuilder w2) 0 = [0; 4; 2]
  ∧ ascending (column <$> lineMappings (_sourceMapBuilder w2) 0) = false.
Proof. cbv zeta. by vm_compute. Qed.

(** C8: the code at the failing input.  A chunk of 262144 bytes written to
    a new stream (capacity 131072): [ensureCapacity] stops at the capacity
    262143, one byte short of the chunk, so the capacity is below the prior
    length plus the length of the chunk, and [toBuffer(0, 262144)] is not the
    chunk: its last byte was never written. *)
Theorem growth_falls_short :
  ∃ s r,
    BufferStream._write (BufferStream.create target) bigChunk = Some s
    ∧ BufferStream.length s = 262144
    ∧ BufferStream.capacity s = 262143
    ∧ BufferStream.toBuffer s 0 262144 = Some r
    ∧ r !! Z.to_nat 262143 = Some None
    ∧ bigChunk !! Z.to_nat 262143 = Some (Some Byte.xff)
    ∧ r ≠ bigChunk.
Proof.
  destruct (_write_length_capacity (BufferStream.create target) bigChunk)
    as (s & E & El & Ec).
  { rewrite capacity_create. lia. }
  { done. }
  assert (Hb : BufferStream.blen bigChunk = 262144) by (by apply blen_replicate).
  rewrite capacity_create, Hb in Ec. rewrite Hb in El.
  change (BufferStream._length (BufferStream.create target)) with 0 in El, Ec.
  replace (0 + 262144 <? 131072) with false in Ec by (symmetry; by apply Z.ltb_ge).
  replace (Z.min (0 + 262144) (131072 * 2 - 1)) with 262143 in Ec by lia.
  destruct (toBuffer_beyond_capacity s 262144) as (r & Er & Hr); [lia|].
  rewrite Ec in Hr.
  assert (Hc : bigChunk !! Z.to_nat 262143 = Some (Some Byte.xff)).
  { unfold bigChunk. apply lookup_replicate. split; [done|lia]. }
  exists s, r.
  split; [exact E|]. split; [exact El|]. split; [exact Ec|].
  split; [exact Er|]. split; [exact Hr|]. split; [exact Hc|].
  intros Heq. rewrite Heq, Hc in Hr. discriminate Hr.
Qed.

(** C9: the code at the failing input.  After that write the length,
    262144, exceeds the capacity, 262143 (while the capacity did not
    shrink). *)
Theorem length_exceeds_capacity :
  ∃ s,
    BufferStream._write (BufferStream.create target) bigChunk = Some s
    ∧ BufferStream.capacity s < BufferStream.length s
    ∧ BufferStream.capacity (BufferStream.create target) <= BufferStream.capacity s.
Proof.
  destruct (_write_length_capacity (BufferStream.create target) bigChunk)
    as (s & E & El & Ec).
  { rewrite capacity_create. lia. }
  { done. }
  assert (Hb : BufferStream.blen bigChunk = 262144) by (by apply blen_replicate).
  rewrite capacity_create, Hb in Ec. rewrite Hb in El.
  change (BufferStream._length (BufferStream.create target)) with 0 in El, Ec.
  replace (0 + 262144 <? 131072) with false in Ec by (symmetry; by apply Z.ltb_ge).
  replace (Z.min (0 + 262144) (131072 * 2 - 1)) with 262143 in Ec by lia.
  exists s. rewrite capacity_create, El, Ec. split; [done|]. lia.
Qed.


End Claims.

(** * Further properties of the writers *)

(** ** Indentation *)

Lemma substring_append (s t : string) :
  String.substring 0 (String.length s) (s +:+ t) = s.
Proof.
  induction s as [|c s IH]; [by destruct t|].
  rewrite append_cons. cbn [String.length String.substring]. by rewrite IH.
Qed.

Lemma substring_prefix (s : string) (m : nat) :
  ∃ r, s = String.substring 0 m s +:+ r
       ∧ String.length (String.substring 0 m s) = (m `min` String.length s)%nat.
Proof.
  revert m. induction s as [|c s IH]; intros m.
  - exists "". by destruct m.
  - destruct m as [|m]; cbn [String.substring String.length].
    + by exists (String c s).
    + destruct (IH m) as (r & E & El). exists r.
      rewrite append_cons, <-E. cbn [String.length]. split; [done|lia].
Qed.

(** X1.  [unindent] undoes [indent]: after [indent()] and [unindent()] the
    writer is the one it was, whatever the indentation character(s). *)
Theorem indent_unindent :
  (∀ w : Writer.t, Writer.unindent (Writer.indent w) = w)
  ∧ (∀ w : SourceMapWriter.t, SourceMapWriter.unindent (SourceMapWriter.indent w) = w).
Proof.
  assert (H : ∀ w : Writer.t, Writer.unindent (Writer.indent w) = w).
  { intros [f i c s]. unfold Writer.unindent, Writer.indent, Writer.setIndentString.
    cbn [Writer.file Writer.indentString Writer.indentChar Writer.content].
    f_equal. unfold substr0. rewrite strlen_append.
    replace (Z.to_nat (strlen i + strlen c - strlen c)) with (String.length i)
      by (unfold strlen; lia).
    apply substring_append. }
  split; [exact H|].
  intros [b m l c]. unfold SourceMapWriter.unindent, SourceMapWriter.indent.
  cbn. by rewrite H.
Qed.

(** X2.  [unindent] removes as many characters from the end of the
    indentation as the indentation character has, and leaves the empty string
    when the indentation is not longer than that: what remains is a prefix of
    the indentation, of length [max 0 (length - indentChar.length)]. *)
Theorem unindent_clamps (w : Writer.t) :
  (∃ r, Writer.indentString w = Writer.indentString (Writer.unindent w) +:+ r)
  ∧ strlen (Writer.indentString (Writer.unindent w))
    = Z.max 0 (strlen (Writer.indentString w) - strlen (Writer.indentChar w))
  ∧ Writer.content (Writer.unindent w) = Writer.content w
  ∧ Writer.indentChar (Writer.unindent w) = Writer.indentChar w.
Proof.
  destruct w as [f i c s]. cbn. unfold substr0.
  destruct (substring_prefix i (Z.to_nat (strlen i - strlen c))) as (r & E & El).
  split; [by exists r|]. split; [|done].
  unfold strlen in *. rewrite El. lia.
Qed.

(** ** Texts written in pieces *)

Lemma startsWithLF_append (a b : string) :
  startsWithLF (a +:+ b) = match a with "" => startsWithLF b | _ => startsWithLF a end.
Proof. by destruct a. Qed.

Lemma endsWithCR_cons (ch : ascii) (s : string) :
  endsWithCR (String ch s) = match s with "" => isCR ch | _ => endsWithCR s end.
Proof. done. Qed.

Lemma splitPair_cons (ch : ascii) (a b : string) :
  a ≠ "" → splitPair (String ch a) b = splitPair a b.
Proof. intros H. unfold splitPair. rewrite endsWithCR_cons. by destruct a. Qed.

Lemma splitPair_empty (b : string) : splitPair "" b = false.
Proof. done. Qed.

(** The line breaks of a text made of two pieces: those of the pieces, less
    one when a CR LF pair lies across the seam. *)
Lemma lineBreaks_append (a b : string) :
  lineBreaks (a +:+ b)
  = lineBreaks a + lineBreaks b - (if splitPair a b then 1 else 0).
Proof.
  induction a as [|ch a IH].
  { rewrite append_empty_l, splitPair_empty. cbn [lineBreaks]. lia. }
  rewrite append_cons. cbn [lineBreaks]. rewrite IH, startsWithLF_append.
  destruct a as [|c2 a].
  - unfold splitPair. cbn [endsWithCR startsWithLF lineBreaks andb].
    destruct (isCR ch) eqn:E1, (startsWithLF b) eqn:E2; cbn [andb negb orb];
      rewrite ?orb_false_r, ?orb_true_r; try lia.
    rewrite (isCR_not_LF _ E1). cbn [lineBreaks]. lia.
  - rewrite (splitPair_cons ch (String c2 a)) by done. lia.
Qed.

Lemma hasBreak_append (a b : string) : hasBreak (a +:+ b) = hasBreak a || hasBreak b.
Proof.
  induction a as [|ch a IH]; [done|].
  rewrite append_cons. cbn [hasBreak]. by rewrite IH, orb_assoc.
Qed.

Lemma renderedColumnFrom_no_break (b : string) : ∀ acc,
  hasBreak b = false → renderedColumnFrom acc b = acc + strlen b.
Proof.
  induction b as [|ch b IH]; intros acc H; cbn [renderedColumnFrom].
  - unfold strlen. cbn. lia.
  - cbn [hasBreak] in H. apply orb_false_iff in H as [H1 H2]. rewrite H1, IH by done.
    unfold strlen. cbn [String.length]. lia.
Qed.

Lemma renderedColumnFrom_break (b : string) : ∀ acc,
  hasBreak b = true → renderedColumnFrom acc b = renderedColumn b.
Proof.
  unfold renderedColumn. induction b as [|ch b IH]; intros acc H; [done|].
  cbn [renderedColumnFrom]. cbn [hasBreak] in H.
  destruct (isBreak ch); [done|]. cbn [orb] in H.
  by rewrite (IH (acc + 1)), (IH (0 + 1)).
Qed.

Lemma renderedColumnFrom_append (a b : string) : ∀ acc,
  renderedColumnFrom acc (a +:+ b) = renderedColumnFrom (renderedColumnFrom acc a) b.
Proof.
  induction a as [|ch a IH]; intros acc; [done|].
  rewrite append_cons. cbn [renderedColumnFrom]. by destruct (isBreak ch).
Qed.

(** The rendered column of a text made of two pieces. *)
Lemma renderedColumn_append (a b : string) :
  renderedColumn (a +:+ b)
  = if hasBreak b then renderedColumn b else renderedColumn a + strlen b.
Proof.
  unfold renderedColumn at 1. rewrite renderedColumnFrom_append.
  destruct (hasBreak b) eqn:E.
  - by apply renderedColumnFrom_break.
  - by apply renderedColumnFrom_no_break.
Qed.

Lemma strlen_cons (ch : ascii) (s : string) : strlen (String ch s) = 1 + strlen s.
Proof. unfold strlen. cbn [String.length]. lia. Qed.

Lemma strlen_insertIndent (ind t : string) :
  strlen (insertIndent ind t) = strlen t + lineBreaks t * strlen ind.
Proof.
  induction t as [|ch rest H IH|ch rest H1 H2 IH|ch rest H IH] using break_ind.
  - done.
  - rewrite insertIndent_crlf, lineBreaks_crlf by done.
    rewrite !strlen_cons, strlen_append, IH. lia.
  - rewrite insertIndent_break, lineBreaks_break by done.
    rewrite !strlen_cons, strlen_append, IH. lia.
  - rewrite insertIndent_char, lineBreaks_char by done.
    rewrite !strlen_cons, IH. lia.
Qed.

Lemma insertIndent_no_break (ind t : string) :
  hasBreak t = false → insertIndent ind t = t.
Proof.
  induction t as [|ch t IH]; [done|]. cbn [hasBreak].
  intros [H1 H2]%orb_false_iff. by rewrite insertIndent_char, IH.
Qed.

(** The indentation is inserted after the line breaks of each piece; the
    pieces can be put together unless a CR LF pair lies across the seam. *)
Lemma insertIndent_append (ind a b : string) :
  splitPair a b = false →
  insertIndent ind (a +:+ b) = insertIndent ind a +:+ insertIndent ind b.
Proof.
  induction a as [|ch rest H IH|ch rest H1 H2 IH|ch rest H IH] using break_ind;
    intros Hs.
  - done.
  - rewrite !append_cons, !insertIndent_crlf by done.
    rewrite !append_cons, append_assoc, IH; [done|].
    destruct rest as [|c2 rest]; [done|].
    rewrite (splitPair_cons ch), (splitPair_cons LF) in Hs by done. exact Hs.
  - rewrite append_cons. rewrite !insertIndent_break; try done.
    + rewrite append_cons, append_assoc, IH; [done|].
      destruct rest as [|c2 rest]; [done|].
      rewrite (splitPair_cons ch) in Hs by done. exact Hs.
    + rewrite startsWithLF_append. destruct rest; [|done].
      unfold splitPair in Hs. exact Hs.
  - rewrite append_cons, !insertIndent_char by done.
    rewrite append_cons, IH; [done|].
    destruct rest as [|c2 rest]; [done|].
    rewrite (splitPair_cons ch) in Hs by done. exact Hs.
Qed.

(** X3.  A write lengthens the content by the length of its text and, for
    each line break of the text, by the length of the indentation: nothing is
    dropped and nothing else is inserted.  This holds for
    [SourceMapWriter.write], with or without origin, and for [Writer.write]
    when the indentation holds no [$] (which [String.replace] would read as
    the start of a replacement pattern). *)
Theorem write_content_length :
  (∀ (w : Writer.t) (text : string),
     dollarFree (Writer.indentString w) = true →
     strlen (Writer.content (Writer.write w text))
     = strlen (Writer.content w) + strlen text
       + lineBreaks text * strlen (Writer.indentString w))
  ∧ (∀ (w : SourceMapWriter.t) (text : string) (sourceFile : option File)
       (sourceLine sourceColumn : Z),
       strlen (SourceMapWriter.content
                 (SourceMapWriter.write w text sourceFile sourceLine sourceColumn))
       = strlen (SourceMapWriter.content w) + strlen text
         + lineBreaks text * strlen (SourceMapWriter.indentString w)).
Proof.
  split.
  - intros w text Hd. rewrite write_text by done. cbn [Writer.content Writer.setContent].
    rewrite strlen_append, strlen_insertIndent. lia.
  - intros w text sourceFile sl sc.
    rewrite write_content, strlen_append, strlen_insertIndent. lia.
Qed.

(** The text "a\nb" written with two levels of indentation (two tabs). *)
Lemma write_content_length_witness :
  let w := Writer.indent (Writer.indent (Writer.create target None)) in
  dollarFree (Writer.indentString w) = true
  ∧ strlen (Writer.content (Writer.write w a_b))
    = strlen (Writer.content w) + strlen a_b + lineBreaks a_b * strlen (Writer.indentString w).
Proof.
  cbv zeta. split; [done|].
  apply (proj1 write_content_length
           (Writer.indent (Writer.indent (Writer.create target None))) a_b).
  done.
Defined.

Lemma write_append (w : Writer.t) (a b : string) :
  dollarFree (Writer.indentString w) = true →
  splitPair a b && nonEmpty (Writer.indentString w) = false →
  Writer.write (Writer.write w a) b = Writer.write w (a +:+ b).
Proof.
  intros Hd H. rewrite (write_text w a), (write_text w (a +:+ b)) by done.
  rewrite write_text by done.
  cbn [Writer.content Writer.indentString Writer.setContent Writer.file Writer.indentChar].
  f_equal. rewrite append_assoc. f_equal.
  destruct (splitPair a b) eqn:E.
  - cbn [andb] in H. unfold nonEmpty in H. apply negb_false_iff in H.
    apply String.eqb_eq in H. by rewrite H, !insertIndent_empty.
  - by rewrite insertIndent_append.
Qed.

(** X4.  For an indentation without [$], writing a text in two pieces with
    [Writer.write] gives the writer of writing it at once, unless the writer
    is indented and a CR LF pair lies across the seam of the pieces.  (A [$]
    of the indentation starts a replacement pattern of [String.replace], and
    the patterns for the text before and behind a line break see the piece,
    not the whole text.) *)
Theorem write_in_pieces (w : Writer.t) (a b : string) :
  dollarFree (Writer.indentString w) = true →
  splitPair a b && nonEmpty (Writer.indentString w) = false →
  Writer.write (Writer.write w a) b = Writer.write w (a +:+ b).
Proof. apply write_append. Qed.

(** The pieces "ab" and "c\\nd" written with one level of indentation. *)
Lemma write_in_pieces_witness :
  let w := Writer.indent (Writer.create target None) in
  dollarFree (Writer.indentString w) = true
  ∧ splitPair "ab" ("c" +:+ String LF "d") && nonEmpty (Writer.indentString w) = false
  ∧ Writer.write (Writer.write w "ab") ("c" +:+ String LF "d")
    = Writer.write w ("ab" +:+ ("c" +:+ String LF "d")).
Proof.
  cbv zeta. split; [done|]. split; [done|].
  apply (write_in_pieces (Writer.indent (Writer.create target None)) "ab"
           ("c" +:+ String LF "d")).
  - done.
  - done.
Defined.

(** X5.  A CR LF pair that lies across two writes is taken for two line
    breaks: after writing the pieces [a] and [b] the current line of the
    [SourceMapWriter] is the one after writing [a ++ b] at once, plus one if
    [a] ends with a CR and [b] begins with an LF. *)
Theorem line_cursor_in_pieces (w : SourceMapWriter.t) (a b : string)
    (o1 o2 o : option File) (l1 c1 l2 c2 l c : Z) :
  SourceMapWriter._currentLine
    (SourceMapWriter.write (SourceMapWriter.write w a o1 l1 c1) b o2 l2 c2)
  = SourceMapWriter._currentLine (SourceMapWriter.write w (a +:+ b) o l c)
    + (if splitPair a b then 1 else 0).
Proof. rewrite !write_line, lineBreaks_append. lia. Qed.

Lemma write_column_rendered (w : SourceMapWriter.t) (text : string)
    (sourceFile : option File) (sl sc : Z) :
  SourceMapWriter._currentColumn (SourceMapWriter.write w text sourceFile sl sc)
  = if hasBreak text then SourceMapWriter.indentLength w + renderedColumn text + 1
    else SourceMapWriter._currentColumn w + strlen text.
Proof.
  rewrite write_column, lineBreaks_hasBreak.
  pose proof (findLastLineBreak_rendered text) as H. cbv zeta in H.
  destruct (hasBreak text); cbn [negb].
  - destruct H as [H1 H2].
    destruct (Z.ltb_spec (SourceMapWriter.findLastLineBreak text (String.length text)) 0); lia.
  - destruct H as [-> H2]. cbn. lia.
Qed.

Lemma write_indentLength (w : SourceMapWriter.t) (text : string)
    (sourceFile : option File) (sl sc : Z) :
  SourceMapWriter.indentLength (SourceMapWriter.write w text sourceFile sl sc)
  = SourceMapWriter.indentLength w.
Proof.
  unfold SourceMapWriter.indentLength, SourceMapWriter.indentString.
  rewrite write_base. done.
Qed.

Lemma writer_eq (x y : SourceMapWriter.t) :
  SourceMapWriter.base x = SourceMapWriter.base y →
  SourceMapWriter._sourceMapBuilder x = SourceMapWriter._sourceMapBuilder y →
  SourceMapWriter._currentLine x = SourceMapWriter._currentLine y →
  SourceMapWriter._currentColumn x = SourceMapWriter._currentColumn y →
  x = y.
Proof. destruct x, y. cbn. by intros -> -> -> ->. Qed.

(** X6.  Texts written without origin can be written in pieces: unless a
    CR LF pair lies across the seam, writing [a] and then [b] leaves the
    [SourceMapWriter] -- content, builder, current line and current column --
    exactly as writing [a ++ b] at once. *)
Theorem write_no_origin_in_pieces (w : SourceMapWriter.t) (a b : string)
    (l1 c1 l2 c2 l c : Z) :
  splitPair a b = false →
  SourceMapWriter.write (SourceMapWriter.write w a None l1 c1) b None l2 c2
  = SourceMapWriter.write w (a +:+ b) None l c.
Proof.
  intros Hs. apply writer_eq.
  - rewrite !write_base. unfold SourceMapWriter.content, SourceMapWriter.indentString.
    rewrite !write_base.
    cbn [Writer.content Writer.indentString Writer.setContent Writer.file Writer.indentChar].
    f_equal. rewrite append_assoc. f_equal. symmetry. by apply insertIndent_append.
  - by rewrite !write_no_origin.
  - rewrite !write_line, lineBreaks_append, Hs. lia.
  - rewrite !write_column_rendered, write_indentLength.
    rewrite hasBreak_append, renderedColumn_append, strlen_append.
    destruct (hasBreak a), (hasBreak b); cbn [orb]; lia.
Qed.

(** The pieces "a\\nb" and "cd", written with one level of indentation. *)
Lemma write_no_origin_in_pieces_witness :
  let w := SourceMapWriter.indent (SourceMapWriter.create target None) in
  splitPair a_b "cd" = false
  ∧ SourceMapWriter.write (SourceMapWriter.write w a_b None 0 0) "cd" None 0 0
    = SourceMapWriter.write w (a_b +:+ "cd") None 0 0.
Proof.
  cbv zeta. split; [done|].
  apply (write_no_origin_in_pieces
           (SourceMapWriter.indent (SourceMapWriter.create target None)) a_b "cd").
  done.
Defined.

(** X7.  For texts without line break the column is kept exactly: if the
    current column is the rendered column of the content -- the number of
    characters after its last line break -- before such a text is written,
    with or without origin, it is so afterwards; and it is so on a new
    writer. *)
Theorem column_exact_without_break :
  (∀ (out : File) (options : option WriterOptions),
     SourceMapWriter._currentColumn (SourceMapWriter.create out options)
     = renderedColumn (SourceMapWriter.content (SourceMapWriter.create out options)))
  ∧ (∀ (w : SourceMapWriter.t) (text : string) (sourceFile : option File)
       (sourceLine sourceColumn : Z),
       hasBreak text = false →
       SourceMapWriter._currentColumn w = renderedColumn (SourceMapWriter.content w) →
       let w' := SourceMapWriter.write w text sourceFile sourceLine sourceColumn in
       SourceMapWriter._currentColumn w' = renderedColumn (SourceMapWriter.content w')).
Proof.
  split; [done|].
  intros w text sourceFile sl sc Hb Hc. cbv zeta.
  rewrite write_column_rendered, write_content, Hb.
  rewrite insertIndent_no_break, renderedColumn_append, Hb by done. lia.
Qed.

(** "abc" written from a.js:1:0 to a new writer: column 3. *)
Lemma column_exact_without_break_witness :
  let w := SourceMapWriter.create target None in
  let w' := SourceMapWriter.write w "abc" (Some fileA) 1 0 in
  hasBreak "abc" = false
  ∧ SourceMapWriter._currentColumn w = renderedColumn (SourceMapWriter.content w)
  ∧ SourceMapWriter._currentColumn w' = renderedColumn (SourceMapWriter.content w').
Proof.
  cbv zeta. split; [done|]. split; [done|].
  apply (proj2 column_exact_without_break (SourceMapWriter.create target None) "abc"
           (Some fileA) 1 0); done.
Defined.

(** ** The table only grows *)

Lemma copyMappings_extends sm len lastLineBreak i sc cc entries : ∀ old new b,
  new ≠ [] →
  let r := SourceMapWriter.copyMappings sm len lastLineBreak i sc cc entries (old ++ new) b in
  (∃ new', new' ≠ [] ∧ r.1 = old ++ new') ∧ file r.2 = file b.
Proof.
  induction entries as [|m entries IH]; intros old new b Hne;
    cbn [SourceMapWriter.copyMappings].
  - split; [by exists new|done].
  - destruct ((i =? 0) && (column m <? sc)); [by apply IH|].
    destruct ((i =? lastLineBreak) && _); [split; [by exists new|done]|].
    set (newColumn := column m - sc + cc).
    set (r0 := addSource b (sourceAt (sources sm) (sourceIndex m))).
    set (l1 := if SourceMapWriter.lastColumnIs (old ++ new) newColumn
               then removelast (old ++ new) else old ++ new).
    assert (H1 : ∃ new1, l1 = old ++ new1).
    { unfold l1. destruct (SourceMapWriter.lastColumnIs _ _); [|by exists new].
      exists (removelast new). by apply removelast_app. }
    destruct H1 as [new1 ->]. rewrite <-app_assoc.
    destruct (IH old (new1 ++ [copyOf m newColumn r0.1]) r0.2) as [H2 H3].
    { by destruct new1. }
    cbv zeta. split; [exact H2|]. rewrite H3. apply addSource_file.
Qed.

Section Grows.

Import SourceMapWriter.

Variables (f : File) (len lastLineBreak : Z).

(** One emission: the current line gets entries behind those it has, the
    other lines are not touched. *)
Lemma addMappings_extends i w sl sc :
  let b := _sourceMapBuilder w in
  let b' := _sourceMapBuilder (addMappings f len lastLineBreak i w sl sc) in
  file b' = file b
  ∧ ∃ new, new ≠ []
           ∧ ∀ j, mappings b' !! j
                  = if decide (j = _currentLine w) then Some (lineMappings b j ++ new)
                    else mappings b !! j.
Proof.
  cbv zeta. unfold addMappings. cbn [_sourceMapBuilder setBuilder].
  set (b := _sourceMapBuilder w).
  set (r := addSource b (Some (originPath f))).
  set (e := {| column := _currentColumn w; sourceIndex := r.1; sourceLine := sl;
               sourceColumn := sc; nameIndex := None |}).
  destruct (sourceMapBuilder f) as [sm|].
  - destruct (copyMappings_extends sm len lastLineBreak i sc (_currentColumn w)
                (lineMappings sm sl) (lineMappings b (_currentLine w)) [e] r.2 ltac:(done))
      as [(new & Hne & E) Hf].
    destruct (copyMappings_copies sm len lastLineBreak i sc (_currentColumn w) sl
                (lineMappings sm sl) (lineMappings b (_currentLine w) ++ [e]) r.2
                ltac:(done)) as (_ & Hm & _).
    split; [cbn [file setLineMappings]; rewrite Hf; apply addSource_file|].
    exists new. split; [done|]. intros j.
    rewrite lookup_setLineMappings, E, Hm. unfold r. rewrite addSource_mappings.
    case_decide; [by subst|done].
  - cbn [fst snd]. split; [cbn [file setLineMappings]; apply addSource_file|].
    exists [e]. split; [done|]. intros j.
    rewrite lookup_setLineMappings. unfold r. rewrite addSource_mappings.
    case_decide; [by subst|done].
Qed.

Lemma lineMappings_eq b b' j :
  mappings b' !! j = mappings b !! j → lineMappings b' j = lineMappings b j.
Proof. unfold lineMappings. by intros ->. Qed.

Lemma grows_break_step rest text i i1 i2 w wb :
  (∀ i w sl sc, 0 <= i →
     tableGrows rest i w
       (_sourceMapBuilder (writeLoop (Some f) len lastLineBreak i rest w sl sc))) →
  0 < i2 →
  _sourceMapBuilder wb = _sourceMapBuilder w →
  _currentLine wb = _currentLine w + 1 →
  startsMidLine text = false →
  lineBreaks text = 1 + lineBreaks rest →
  ∀ sl sc sl' sc',
  tableGrows text i w
    (_sourceMapBuilder
       (writeLoop (Some f) len lastLineBreak i2 rest
          (mapHere (Some f) len lastLineBreak i1 true wb sl sc) sl' sc')).
Proof.
  intros IH Hi2 Eb El Hmid Hn sl sc sl' sc'.
  pose proof (lineBreaks_nonneg rest) as Hnn.
  set (w2 := mapHere (Some f) len lastLineBreak i1 true wb sl sc).
  destruct (addMappings_extends i1 wb sl sc) as (Hf2 & new & Hne & H2).
  change (addMappings f len lastLineBreak i1 wb sl sc) with w2 in Hf2, H2.
  rewrite Eb in Hf2, H2. rewrite El in H2.
  assert (El2 : _currentLine w2 = _currentLine w + 1).
  { unfold w2. by rewrite mapHere_line. }
  destruct (IH i2 w2 sl' sc' ltac:(lia)) as [Hf H].
  unfold tableGrows, firstMapped, lastMapped in *. rewrite El2 in H.
  destruct (Z.eqb_spec i2 0) as [?|_]; [lia|]. cbn [andb] in H.
  rewrite Hmid, andb_false_r, Hn.
  split; [by rewrite Hf|].
  intros j. destruct (H j) as (Hp & Hfr & Hgr).
  assert (Hj : lineMappings (_sourceMapBuilder w2) j
               = if decide (j = _currentLine w + 1)
                 then lineMappings (_sourceMapBuilder w) j ++ new
                 else lineMappings (_sourceMapBuilder w) j).
  { unfold lineMappings at 1. rewrite H2. by case_decide. }
  split; [|split].
  - etrans; [|exact Hp]. rewrite Hj. case_decide; [by apply prefix_app_r|done].
  - intros Hout. rewrite Hfr, H2 by lia. case_decide; [lia|done].
  - intros Hin. destruct (decide (j = _currentLine w + 1)) as [->|Hne'].
    + apply prefix_length in Hp. rewrite Hj, length_app in Hp.
      destruct new; [done|]. cbn [length] in Hp. lia.
    + specialize (Hgr ltac:(lia)). rewrite Hj in Hgr. exact Hgr.
Qed.

Lemma writeLoop_grows rest : ∀ i w sl sc,
  0 <= i →
  tableGrows rest i w
    (_sourceMapBuilder (writeLoop (Some f) len lastLineBreak i rest w sl sc)).
Proof.
  induction rest as [|ch rest H IH|ch rest H1 H2 IH|ch rest H IH] using break_ind;
    intros i w sl sc Hi.
  - split; [done|]. intros j. unfold firstMapped, lastMapped. cbn.
    rewrite andb_false_r. split; [done|]. split; [done|]. lia.
  - rewrite writeLoop_crlf by done.
    apply (grows_break_step rest); try done; try lia.
    + cbn. by rewrite (isBreak_CR _ H).
    + by apply lineBreaks_crlf.
  - rewrite writeLoop_break by done.
    apply (grows_break_step rest); try done; try lia.
    + cbn. by rewrite H1.
    + by apply lineBreaks_break.
  - rewrite writeLoop_char by done.
    pose proof (lineBreaks_nonneg rest) as Hnn.
    set (w2 := mapHere (Some f) len lastLineBreak i false (appendChar w ch) sl sc).
    assert (El2 : _currentLine w2 = _currentLine w).
    { unfold w2. by rewrite mapHere_line. }
    destruct (IH (i + 1) w2 sl sc ltac:(lia)) as [Hf Hall].
    unfold tableGrows, firstMapped, lastMapped in *. rewrite El2 in Hall.
    destruct (Z.eqb_spec (i + 1) 0) as [?|_]; [lia|]. cbn [andb] in Hall.
    rewrite lineBreaks_char by done. cbn [startsMidLine]. rewrite H. cbn [negb].
    destruct (Z.eqb_spec i 0) as [->|Hne]; cbn [andb].
    + destruct (addMappings_extends 0 (appendChar w ch) sl sc) as (Hf2 & new & Hne & H2).
      change (addMappings f len lastLineBreak 0 (appendChar w ch) sl sc) with w2 in Hf2, H2.
      change (_sourceMapBuilder (appendChar w ch)) with (_sourceMapBuilder w) in Hf2, H2.
      change (_currentLine (appendChar w ch)) with (_currentLine w) in H2.
      split; [by rewrite Hf|].
      intros j. destruct (Hall j) as (Hp & Hfr & Hgr).
      assert (Hj : lineMappings (_sourceMapBuilder w2) j
                   = if decide (j = _currentLine w)
                     then lineMappings (_sourceMapBuilder w) j ++ new
                     else lineMappings (_sourceMapBuilder w) j).
      { unfold lineMappings at 1. rewrite H2. by case_decide. }
      split; [|split].
      * etrans; [|exact Hp]. rewrite Hj. case_decide; [by apply prefix_app_r|done].
      * intros Hout. rewrite Hfr, H2 by lia. case_decide; [lia|done].
      * intros Hin. destruct (decide (j = _currentLine w)) as [->|Hne'].
        -- apply prefix_length in Hp. rewrite Hj, length_app in Hp.
           destruct new; [done|]. cbn [length] in Hp. lia.
        -- specialize (Hgr ltac:(lia)). rewrite Hj in Hgr. exact Hgr.
    + assert (Eb2 : _sourceMapBuilder w2 = _sourceMapBuilder w).
      { unfold w2, mapHere. cbn [orb]. by destruct (Z.eqb_spec i 0). }
      rewrite Eb2 in Hf, Hall. done.
Qed.

End Grows.

Lemma write_grows f w text sl sc :
  tableGrows text 0 w
    (SourceMapWriter._sourceMapBuilder (SourceMapWriter.write w text (Some f) sl sc)).
Proof.
  unfold SourceMapWriter.write.
  cbn [SourceMapWriter._sourceMapBuilder SourceMapWriter.setColumn].
  by apply writeLoop_grows.
Qed.

(** X8.  A write only appends to the source map: whatever the origin, the
    field [file] of the builder is kept, the sources list keeps its items in
    front of the new ones, and every line of the table keeps the entries it
    had, in their order, in front of the entries it gets.  (The entry that the
    copy loop replaces is always one of the same write.) *)
Theorem write_only_appends (w : SourceMapWriter.t) (text : string) (o : option File)
    (sl sc : Z) :
  let b := SourceMapWriter._sourceMapBuilder w in
  let b' := SourceMapWriter._sourceMapBuilder (SourceMapWriter.write w text o sl sc) in
  file b' = file b
  ∧ sources b `prefix_of` sources b'
  ∧ ∀ j, lineMappings b j `prefix_of` lineMappings b' j.
Proof.
  cbv zeta. destruct o as [f|]; [|by rewrite write_no_origin].
  destruct (write_grows f w text sl sc) as [Hf H].
  destruct (write_placed f w text sl sc) as [Hs _].
  split; [done|]. split; [done|]. intros j. by destruct (H j).
Qed.

(** X9.  A write leaves the lines of the table alone that it does not write
    on: the lines before the current one, the lines after the one it ends on,
    and the current line itself when the text is empty or starts with a line
    break. *)
Theorem write_keeps_other_lines (w : SourceMapWriter.t) (text : string) (o : option File)
    (sl sc j : Z) :
  j < SourceMapWriter._currentLine w
  ∨ SourceMapWriter._currentLine w + lineBreaks text < j
  ∨ (j = SourceMapWriter._currentLine w ∧ startsMidLine text = false) →
  mappings (SourceMapWriter._sourceMapBuilder (SourceMapWriter.write w text o sl sc)) !! j
  = mappings (SourceMapWriter._sourceMapBuilder w) !! j.
Proof.
  intros Hj. destruct o as [f|]; [|by rewrite write_no_origin].
  destruct (write_grows f w text sl sc) as [_ H].
  destruct (H j) as (_ & Hfr & _). apply Hfr.
  unfold firstMapped, lastMapped. cbn [Z.eqb andb].
  destruct Hj as [Hj|[Hj|[-> ->]]]; [|by right|left; lia].
  left. destruct (startsMidLine text); lia.
Qed.

Lemma write_keeps_other_lines_witness :
  0 < SourceMapWriter._currentLine (SourceMapWriter.write stage1 a_b None 0 0)
  ∧ mappings (SourceMapWriter._sourceMapBuilder
                (SourceMapWriter.write (SourceMapWriter.write stage1 a_b None 0 0)
                   x_ab (Some fileT) 0 0)) !! 0
    = mappings (SourceMapWriter._sourceMapBuilder
                  (SourceMapWriter.write stage1 a_b None 0 0)) !! 0.
Proof.
  split; [done|].
  apply (write_keeps_other_lines (SourceMapWriter.write stage1 a_b None 0 0) x_ab
           (Some fileT) 0 0 0).
  left. done.
Defined.

(** X10.  A write with an origin file, with or without a map of its own,
    adds at least one entry to every line on which it starts a run of text:
    the current line, if the text starts with an ordinary character, and each
    line that a line break of the text opens. *)
Theorem write_maps_every_line (f : File) (w : SourceMapWriter.t) (text : string)
    (sl sc j : Z) :
  (if startsMidLine text then SourceMapWriter._currentLine w
   else SourceMapWriter._currentLine w + 1) <= j
  <= SourceMapWriter._currentLine w + lineBreaks text →
  (length (lineMappings (SourceMapWriter._sourceMapBuilder w) j)
   < length (lineMappings
               (SourceMapWriter._sourceMapBuilder
                  (SourceMapWriter.write w text (Some f) sl sc)) j))%nat.
Proof.
  intros Hj. destruct (write_grows f w text sl sc) as [_ H].
  destruct (H j) as (_ & _ & Hgr). apply Hgr.
  unfold firstMapped, lastMapped. by cbn [Z.eqb andb].
Qed.

Lemma write_maps_every_line_witness :
  ((if startsMidLine x_ab then SourceMapWriter._currentLine stage1
    else SourceMapWriter._currentLine stage1 + 1) <= 1
   <= SourceMapWriter._currentLine stage1 + lineBreaks x_ab)
  ∧ (length (lineMappings (SourceMapWriter._sourceMapBuilder stage1) 1)
     < length (lineMappings
                 (SourceMapWriter._sourceMapBuilder
                    (SourceMapWriter.write stage1 x_ab (Some fileT) 0 0)) 1))%nat.
Proof.
  split; [done|].
  apply (write_maps_every_line fileT stage1 x_ab 0 0 1). done.
Defined.

(** ** The columns of the entries of a write *)

Lemma copyMappings_columns sm len lastLineBreak i sc cc entries : ∀ l b e,
  e ∈ (SourceMapWriter.copyMappings sm len lastLineBreak i sc cc entries l b).1 →
  e ∈ l
  ∨ ((i = 0 → cc <= column e)
     ∧ (i = lastLineBreak →
        column e < len + (if i =? 0 then sc else - lastLineBreak) - sc + cc)).
Proof.
  induction entries as [|m entries IH]; intros l b e; cbn [SourceMapWriter.copyMappings].
  - by left.
  - destruct ((i =? 0) && (column m <? sc)) eqn:E1; [by apply IH|].
    destruct ((i =? lastLineBreak) && _) eqn:E2; [by left|].
    cbv zeta. intros [H|H]%IH; [|by right].
    apply elem_of_app in H as [H|H].
    + left. destruct (SourceMapWriter.lastColumnIs l _); [|done].
      by apply elem_of_removelast.
    + apply list_elem_of_singleton in H as ->. right. cbn [column copyOf]. split.
      * intros ->. cbn [Z.eqb andb] in E1. lia.
      * intros <-. rewrite Z.eqb_refl in E2. cbn [andb] in E2. lia.
Qed.

Section Columns.

Import SourceMapWriter.

Variables (f : File) (len lastLineBreak : Z).

Lemma addMappings_columns i w sl sc e :
  e ∈ lineMappings (_sourceMapBuilder (addMappings f len lastLineBreak i w sl sc))
        (_currentLine w) →
  e ∈ lineMappings (_sourceMapBuilder w) (_currentLine w)
  ∨ column e = _currentColumn w
  ∨ ((i = 0 → _currentColumn w <= column e)
     ∧ (i = lastLineBreak →
        column e < len + (if i =? 0 then sc else - lastLineBreak) - sc + _currentColumn w)).
Proof.
  unfold addMappings. cbn [_sourceMapBuilder setBuilder].
  rewrite lineMappings_setLineMappings, decide_True by done.
  assert (Hl : ∀ idx, e ∈ lineMappings (_sourceMapBuilder w) (_currentLine w)
                          ++ [{| column := _currentColumn w; sourceIndex := idx;
                                 sourceLine := sl; sourceColumn := sc; nameIndex := None |}] →
                e ∈ lineMappings (_sourceMapBuilder w) (_currentLine w)
                ∨ column e = _currentColumn w).
  { intros idx [H|H]%elem_of_app; [by left|].
    apply list_elem_of_singleton in H as ->. by right. }
  destruct (sourceMapBuilder f) as [sm|]; cbn [fst].
  - intros [H|H]%copyMappings_columns; [|by right; right].
    destruct (Hl _ H); [by left|by right; left].
  - intros H. destruct (Hl _ H); [by left|by right; left].
Qed.

(** Behind index 0 the loop does not write on the current line or on a line
    before it. *)
Lemma writeLoop_keeps_lines rest i w sl sc j :
  0 < i → j <= _currentLine w →
  lineMappings (_sourceMapBuilder (writeLoop (Some f) len lastLineBreak i rest w sl sc)) j
  = lineMappings (_sourceMapBuilder w) j.
Proof.
  intros Hi Hj. apply lineMappings_eq.
  destruct (writeLoop_grows f len lastLineBreak rest i w sl sc ltac:(lia)) as [_ H].
  destruct (H j) as (_ & Hfr & _). apply Hfr. left. unfold firstMapped.
  destruct (Z.eqb_spec i 0); [lia|]. cbn [andb]. lia.
Qed.

(** An emission does not write on another line than the current one. *)
Lemma mapHere_keeps_lines i brk w sl sc j :
  j ≠ _currentLine w →
  lineMappings (_sourceMapBuilder (mapHere (Some f) len lastLineBreak i brk w sl sc)) j
  = lineMappings (_sourceMapBuilder w) j.
Proof.
  intros Hj. unfold mapHere. destruct (brk || (i =? 0)); [|done].
  apply lineMappings_eq.
  destruct (addMappings_extends f len lastLineBreak i w sl sc) as (_ & new & _ & H).
  rewrite H. by rewrite decide_False.
Qed.

Lemma writeLoop_first_line rest i w sl sc e :
  0 <= i →
  e ∈ lineMappings (_sourceMapBuilder (writeLoop (Some f) len lastLineBreak i rest w sl sc))
        (_currentLine w) →
  e ∈ lineMappings (_sourceMapBuilder w) (_currentLine w) ∨ _currentColumn w <= column e.
Proof.
  intros Hi.
  induction rest as [|ch rest H _|ch rest H1 H2 _|ch rest H _] using break_ind.
  - by left.
  - rewrite writeLoop_crlf by done.
    rewrite writeLoop_keeps_lines by (rewrite ?mapHere_line; cbn [_currentLine lineBreak appendChar setBase]; lia).
    rewrite mapHere_keeps_lines by (cbn [_currentLine lineBreak appendChar setBase]; lia).
    by left.
  - rewrite writeLoop_break by done.
    rewrite writeLoop_keeps_lines by (rewrite ?mapHere_line; cbn [_currentLine lineBreak appendChar setBase]; lia).
    rewrite mapHere_keeps_lines by (cbn [_currentLine lineBreak appendChar setBase]; lia).
    by left.
  - rewrite writeLoop_char by done.
    rewrite writeLoop_keeps_lines by (rewrite ?mapHere_line; cbn [_currentLine appendChar setBase]; lia).
    unfold mapHere. cbn [orb]. destruct (Z.eqb_spec i 0) as [->|_]; [|by left].
    intros He.
    apply (addMappings_columns 0 (appendChar w ch) sl sc e) in He as [He|[He|[He _]]];
      [by left|right..].
    + rewrite He. cbn [_currentColumn appendChar setBase]. lia.
    + by apply He.
Qed.

Lemma indentLength_mapHere i brk w sl sc :
  indentLength (mapHere (Some f) len lastLineBreak i brk w sl sc) = indentLength w.
Proof. unfold indentLength, indentString. by rewrite mapHere_base. Qed.

Lemma last_line_break_step rest text i1 i2 w wb :
  (∀ i w sl sc e,
     0 <= i → len = i + strlen rest →
     (hasBreak rest = true → renderedColumn rest = len - lastLineBreak - 1) →
     0 < lineBreaks rest →
     e ∈ lineMappings (_sourceMapBuilder (writeLoop (Some f) len lastLineBreak i rest w sl sc))
           (_currentLine w + lineBreaks rest) →
     e ∈ lineMappings (_sourceMapBuilder w) (_currentLine w + lineBreaks rest)
     ∨ column e < len - lastLineBreak + indentLength w) →
  0 <= i1 → i1 < i2 → len = i2 + strlen rest →
  _sourceMapBuilder wb = _sourceMapBuilder w →
  _currentLine wb = _currentLine w + 1 →
  _currentColumn wb = indentLength w →
  indentLength wb = indentLength w →
  lineBreaks text = 1 + lineBreaks rest →
  (hasBreak rest = true → renderedColumn rest = len - lastLineBreak - 1) →
  (hasBreak rest = false → lastLineBreak = i1) →
  ∀ sl e,
  e ∈ lineMappings
        (_sourceMapBuilder
           (writeLoop (Some f) len lastLineBreak i2 rest
              (mapHere (Some f) len lastLineBreak i1 true wb sl 0) sl 0))
        (_currentLine w + lineBreaks text) →
  e ∈ lineMappings (_sourceMapBuilder w) (_currentLine w + lineBreaks text)
  ∨ column e < len - lastLineBreak + indentLength w.
Proof.
  intros IH Hi1 Hi2 Hlen Eb El Ec Ei Hn Hbrk Hno sl e.
  pose proof (lineBreaks_nonneg rest) as Hnn.
  pose proof (strlen_nonneg rest) as Hsn.
  pose proof (lineBreaks_hasBreak rest) as Hlb.
  set (w2 := mapHere (Some f) len lastLineBreak i1 true wb sl 0).
  assert (El2 : _currentLine w2 = _currentLine w + 1).
  { unfold w2. by rewrite mapHere_line. }
  rewrite Hn. destruct (hasBreak rest) eqn:E.
  - assert (Hpos : 0 < lineBreaks rest).
    { destruct (Z.eqb_spec (lineBreaks rest) 0); [done|lia]. }
    replace (_currentLine w + (1 + lineBreaks rest))
      with (_currentLine w2 + lineBreaks rest) by lia.
    intros [He|He]%IH; try done; try lia.
    + left. unfold w2 in He. rewrite mapHere_line in He.
      rewrite mapHere_keeps_lines in He by lia. by rewrite Eb in He.
    + right. unfold w2 in He. by rewrite indentLength_mapHere, Ei in He.
  - assert (H0 : lineBreaks rest = 0).
    { destruct (Z.eqb_spec (lineBreaks rest) 0); [done|done]. }
    rewrite H0. replace (_currentLine w + (1 + 0)) with (_currentLine wb) by lia.
    rewrite writeLoop_keeps_lines by (try (unfold w2; rewrite mapHere_line); lia).
    specialize (Hno eq_refl). subst i1.
    unfold w2, mapHere. cbn [orb].
    intros [He|[He|[_ He]]]%addMappings_columns.
    + left. by rewrite Eb in He.
    + right. rewrite He, Ec. lia.
    + right. specialize (He eq_refl). rewrite Ec in He.
      destruct (lastLineBreak =? 0) eqn:E0; lia.
Qed.

Lemma writeLoop_last_line rest : ∀ i w sl sc e,
  0 <= i → len = i + strlen rest →
  (hasBreak rest = true → renderedColumn rest = len - lastLineBreak - 1) →
  0 < lineBreaks rest →
  e ∈ lineMappings (_sourceMapBuilder (writeLoop (Some f) len lastLineBreak i rest w sl sc))
        (_currentLine w + lineBreaks rest) →
  e ∈ lineMappings (_sourceMapBuilder w) (_currentLine w + lineBreaks rest)
  ∨ column e < len - lastLineBreak + indentLength w.
Proof.
  induction rest as [|ch rest H IH|ch rest H1 H2 IH|ch rest H IH] using break_ind;
    intros i w sl sc e Hi Hlen Hbrk Hpos.
  - cbn in Hpos. lia.
  - rewrite writeLoop_crlf by done. rewrite !strlen_cons in Hlen.
    assert (Hr : renderedColumn (String ch (String LF rest)) = renderedColumn rest).
    { unfold renderedColumn. cbn [renderedColumnFrom]. by rewrite (isBreak_CR _ H). }
    assert (Hb : hasBreak (String ch (String LF rest)) = true).
    { cbn [hasBreak]. by rewrite (isBreak_CR _ H). }
    specialize (Hbrk Hb). rewrite Hr in Hbrk.
    apply (last_line_break_step rest); try done; try lia.
    + unfold indentLength, indentString. rewrite lineBreak_base. done.
    + by apply lineBreaks_crlf.
    + intros E. unfold renderedColumn in Hbrk.
      rewrite renderedColumnFrom_no_break in Hbrk by done. lia.
  - rewrite writeLoop_break by done. rewrite strlen_cons in Hlen.
    assert (Hr : renderedColumn (String ch rest) = renderedColumn rest).
    { unfold renderedColumn. cbn [renderedColumnFrom]. by rewrite H1. }
    assert (Hb : hasBreak (String ch rest) = true).
    { cbn [hasBreak]. by rewrite H1. }
    specialize (Hbrk Hb). rewrite Hr in Hbrk.
    apply (last_line_break_step rest); try done; try lia.
    + unfold indentLength, indentString. rewrite lineBreak_base. done.
    + by apply lineBreaks_break.
    + intros E. unfold renderedColumn in Hbrk.
      rewrite renderedColumnFrom_no_break in Hbrk by done. lia.
  - rewrite writeLoop_char by done. rewrite strlen_cons in Hlen.
    rewrite lineBreaks_char in * by done.
    pose proof (lineBreaks_hasBreak rest) as Hlb.
    assert (Hb : hasBreak rest = true).
    { destruct (hasBreak rest); [done|]. destruct (Z.eqb_spec (lineBreaks rest) 0); [lia|done]. }
    assert (Hr : renderedColumn rest = len - lastLineBreak - 1).
    { rewrite <-Hbrk by (cbn [hasBreak]; by rewrite Hb, orb_true_r).
      unfold renderedColumn at 2. cbn [renderedColumnFrom]. rewrite H.
      by rewrite renderedColumnFrom_break. }
    set (w2 := mapHere (Some f) len lastLineBreak i false (appendChar w ch) sl sc).
    assert (El2 : _currentLine w2 = _currentLine w).
    { unfold w2. by rewrite mapHere_line. }
    rewrite <-El2.
    intros [He|He]%IH; try done; try lia.
    + left. rewrite El2 in He. unfold w2 in He.
      rewrite mapHere_keeps_lines in He by (cbn [_currentLine appendChar setBase]; lia).
      rewrite El2. exact He.
    + right. unfold w2 in He. by rewrite indentLength_mapHere in He.
Qed.

End Columns.

(** X11.  On the line on which a write starts, no entry of the write lies
    left of the column at which the write starts: an entry found there
    afterwards was there before, or its column is the current column of the
    writer before the write or greater (the entries of the origin line that
    lie left of the origin column are skipped, lines 188-191). *)
Theorem first_line_columns (f : File) (w : SourceMapWriter.t) (text : string)
    (sl sc : Z) (e : Mapping) :
  e ∈ lineMappings
        (SourceMapWriter._sourceMapBuilder (SourceMapWriter.write w text (Some f) sl sc))
        (SourceMapWriter._currentLine w) →
  e ∈ lineMappings (SourceMapWriter._sourceMapBuilder w) (SourceMapWriter._currentLine w)
  ∨ SourceMapWriter._currentColumn w <= column e.
Proof.
  unfold SourceMapWriter.write.
  cbn [SourceMapWriter._sourceMapBuilder SourceMapWriter.setColumn].
  by apply writeLoop_first_line.
Qed.

Lemma first_line_columns_witness :
  let e := {| column := 5; sourceIndex := 0; sourceLine := 20; sourceColumn := 3;
              nameIndex := None |} in
  e ∈ lineMappings
        (SourceMapWriter._sourceMapBuilder
           (SourceMapWriter.write stage1 "ab" (Some fileT) 1 2))
        (SourceMapWriter._currentLine stage1)
  ∧ (e ∈ lineMappings (SourceMapWriter._sourceMapBuilder stage1)
           (SourceMapWriter._currentLine stage1)
     ∨ SourceMapWriter._currentColumn stage1 <= column e).
Proof.
  cbv zeta.
  assert (H : {| column := 5; sourceIndex := 0; sourceLine := 20; sourceColumn := 3;
                 nameIndex := None |}
              ∈ lineMappings
                  (SourceMapWriter._sourceMapBuilder
                     (SourceMapWriter.write stage1 "ab" (Some fileT) 1 2))
                  (SourceMapWriter._currentLine stage1)).
  { apply list_elem_of_In. vm_compute. auto. }
  split; [exact H|].
  exact (first_line_columns fileT stage1 "ab" 1 2 _ H).
Defined.

(** X12.  On the line on which a write with at least one line break ends, no
    entry of the write lies behind the text: an entry found there afterwards
    was there before, or its column is at most the indentation plus the
    number of characters that the text has after its last line break, and so
    it is less than the current column that the write leaves (the entries of
    the origin line from that length on are dropped, lines 193-196). *)
Theorem last_line_columns (f : File) (w : SourceMapWriter.t) (text : string)
    (sl sc : Z) (e : Mapping) :
  let w' := SourceMapWriter.write w text (Some f) sl sc in
  0 < lineBreaks text →
  e ∈ lineMappings (SourceMapWriter._sourceMapBuilder w') (SourceMapWriter._currentLine w') →
  e ∈ lineMappings (SourceMapWriter._sourceMapBuilder w) (SourceMapWriter._currentLine w')
  ∨ (column e <= SourceMapWriter.indentLength w + renderedColumn text
     ∧ column e < SourceMapWriter._currentColumn w').
Proof.
  cbv zeta. intros Hpos. rewrite write_line, write_column_rendered.
  pose proof (lineBreaks_hasBreak text) as Hlb.
  assert (Hb : hasBreak text = true).
  { destruct (hasBreak text); [done|]. destruct (Z.eqb_spec (lineBreaks text) 0); [lia|done]. }
  rewrite Hb. pose proof (findLastLineBreak_rendered text) as Hr.
  rewrite Hb in Hr. cbv zeta in Hr. destruct Hr as [_ Hr].
  unfold SourceMapWriter.write.
  cbn [SourceMapWriter._sourceMapBuilder SourceMapWriter.setColumn].
  intros He%writeLoop_last_line; try done; try lia.
  destruct He as [He|He]; [by left|right; lia].
Qed.

Lemma last_line_columns_witness :
  let w' := SourceMapWriter.write stage1 x_ab (Some fileT) 0 0 in
  let e := {| column := 0; sourceIndex := 0; sourceLine := 20; sourceColumn := 0;
              nameIndex := None |} in
  0 < lineBreaks x_ab
  ∧ e ∈ lineMappings (SourceMapWriter._sourceMapBuilder w') (SourceMapWriter._currentLine w')
  ∧ (e ∈ lineMappings (SourceMapWriter._sourceMapBuilder stage1)
           (SourceMapWriter._currentLine w')
     ∨ (column e <= SourceMapWriter.indentLength stage1 + renderedColumn x_ab
        ∧ column e < SourceMapWriter._currentColumn w')).
Proof.
  cbv zeta.
  assert (H : {| column := 0; sourceIndex := 0; sourceLine := 20; sourceColumn := 0;
                 nameIndex := None |}
              ∈ lineMappings
                  (SourceMapWriter._sourceMapBuilder
                     (SourceMapWriter.write stage1 x_ab (Some fileT) 0 0))
                  (SourceMapWriter._currentLine
                     (SourceMapWriter.write stage1 x_ab (Some fileT) 0 0))).
  { apply list_elem_of_In. vm_compute. auto. }
  split; [done|]. split; [exact H|].
  exact (last_line_columns fileT stage1 x_ab 0 0 _ ltac:(done) H).
Defined.

(** ** Writers fed from files without a map *)

Lemma ascending_snoc (l : list Z) (c : Z) :
  ascending l = true → (∀ x, x ∈ l → x < c) → ascending (l ++ [c]) = true.
Proof.
  induction l as [|x l IH]; [done|]. intros Ha Hlt.
  destruct l as [|y l].
  - cbn. rewrite andb_true_r. apply Z.ltb_lt, Hlt. by left.
  - cbn [ascending] in Ha. apply andb_true_iff in Ha as [Hxy Ha].
    change ((x :: y :: l) ++ [c]) with (x :: y :: (l ++ [c])).
    cbn [ascending]. rewrite Hxy. cbn [andb].
    apply IH; [done|]. intros z Hz. apply Hlt. by right.
Qed.

Lemma renderedColumnFrom_nonneg (s : string) : ∀ acc, 0 <= acc → 0 <= renderedColumnFrom acc s.
Proof.
  induction s as [|ch s IH]; intros acc Hacc; cbn [renderedColumnFrom]; [done|].
  destruct (isBreak ch); apply IH; lia.
Qed.

Lemma lineBreaks_zero (s : string) : hasBreak s = false → lineBreaks s = 0.
Proof.
  intros H. pose proof (lineBreaks_hasBreak s) as E. rewrite H in E.
  by apply Z.eqb_eq in E.
Qed.

Lemma lineBreaks_pos (s : string) : hasBreak s = true → 0 < lineBreaks s.
Proof.
  intros H. pose proof (lineBreaks_hasBreak s) as E. rewrite H in E.
  pose proof (lineBreaks_nonneg s). apply Z.eqb_neq in E. lia.
Qed.


Lemma lineMappings_leaf f w text sl sc j :
  sourceMapBuilder f = None →
  lineMappings (SourceMapWriter._sourceMapBuilder (SourceMapWriter.write w text (Some f) sl sc)) j
  = lineMappings (SourceMapWriter._sourceMapBuilder w) j
    ++ leafEntries w true text
         (addSource (SourceMapWriter._sourceMapBuilder w) (Some (originPath f))).1 sl sc j.
Proof.
  intros leaf. destruct (write_leaf f w text sl sc leaf) as [H _].
  unfold lineMappings at 1. rewrite H. unfold extendLine.
  destruct (leafEntries _ _ _ _ _ _ _); [by rewrite app_nil_r|done].
Qed.

Lemma write_ordered_none w text sl sc :
  ordered w → ordered (SourceMapWriter.write w text None sl sc).
Proof.
  intros (H1 & H2 & H3). unfold ordered.
  rewrite write_no_origin, write_line, write_column_rendered.
  pose proof (lineBreaks_nonneg text) as Hn. pose proof (strlen_nonneg text) as Hs.
  split; [|split; [|done]].
  - intros j Hj. apply H1. lia.
  - intros e He. destruct (hasBreak text) eqn:E.
    + apply lineBreaks_pos in E. rewrite H1 in He by lia. by apply elem_of_nil in He.
    + rewrite (lineBreaks_zero _ E), Z.add_0_r in He. apply H2 in He. lia.
Qed.

Lemma write_ordered_leaf f w text sl sc :
  sourceMapBuilder f = None →
  ordered w → ordered (SourceMapWriter.write w text (Some f) sl sc).
Proof.
  intros leaf (H1 & H2 & H3). unfold ordered.
  rewrite write_line, write_column_rendered.
  pose proof (lineBreaks_nonneg text) as Hn. pose proof (strlen_nonneg text) as Hs.
  pose proof (renderedColumnFrom_nonneg text 0 ltac:(done)) as Hr.
  fold (renderedColumn text) in Hr.
  split; [|split].
  - intros j Hj. rewrite lineMappings_leaf by done.
    rewrite H1 by lia. unfold leafEntries, startEntries, breakEntries.
    rewrite !bool_decide_eq_false_2 by lia. by rewrite andb_false_r.
  - intros e. rewrite lineMappings_leaf by done.
    unfold leafEntries, startEntries, breakEntries. cbn [andb].
    destruct (hasBreak text) eqn:E.
    + apply lineBreaks_pos in E. rewrite H1 by lia.
      rewrite (bool_decide_eq_false_2 (_ = _)) by lia. rewrite andb_false_r.
      rewrite bool_decide_eq_true_2 by lia. cbn [app].
      intros ->%list_elem_of_singleton. cbn [column lineHead]. lia.
    + rewrite (lineBreaks_zero _ E), Z.add_0_r.
      rewrite (bool_decide_eq_false_2 (_ < _ ≤ _)) by lia. rewrite app_nil_r.
      intros [He|He]%elem_of_app; [apply H2 in He; lia|].
      destruct (startsMidLine text) eqn:Em; [|by apply elem_of_nil in He].
      rewrite bool_decide_eq_true_2 in He by done. cbn [andb] in He.
      apply list_elem_of_singleton in He as ->. cbn [column lineHead].
      destruct text as [|ch text]; [done|]. rewrite strlen_cons.
      pose proof (strlen_nonneg text). lia.
  - intros j. rewrite lineMappings_leaf by done.
    unfold leafEntries, startEntries, breakEntries. cbn [andb].
    destruct (decide (j = SourceMapWriter._currentLine w)) as [->|Hj].
    + rewrite (bool_decide_eq_false_2 (_ < _ ≤ _)) by lia. rewrite app_nil_r.
      rewrite bool_decide_eq_true_2 by done. rewrite andb_true_r.
      destruct (startsMidLine text); [|by rewrite app_nil_r].
      rewrite fmap_app. cbn [fmap list_fmap column lineHead].
      apply ascending_snoc; [done|].
      intros x (e & -> & He)%list_elem_of_fmap. by apply H2.
    + rewrite (bool_decide_eq_false_2 (_ = _)) by done. rewrite andb_false_r. cbn [app].
      case_bool_decide as Hin; [|by rewrite app_nil_r].
      by rewrite H1 by lia.
Qed.

Lemma call_ordered w c : withoutMap c = true → ordered w → ordered (call w c).
Proof.
  destruct c as [| |text [f|] sl sc]; cbn [call withoutMap]; intros Hc Hw.
  - exact Hw.
  - exact Hw.
  - apply write_ordered_leaf; [|done]. by destruct (sourceMapBuilder f).
  - by apply write_ordered_none.
Qed.

Lemma calls_ordered cs : ∀ w,
  forallb withoutMap cs = true → ordered w → ordered (calls w cs).
Proof.
  induction cs as [|c cs IH]; intros w Hcs Hw; [done|].
  cbn [forallb] in Hcs. apply andb_true_iff in Hcs as [Hc Hcs].
  cbn [calls fold_left]. apply IH; [done|]. by apply call_ordered.
Qed.

Lemma create_ordered file options : ordered (SourceMapWriter.create file options).
Proof.
  unfold ordered, lineMappings. cbn. split; [done|]. split; [|done].
  intros e He. by apply elem_of_nil in He.
Qed.

(** X13.  As long as a writer is only fed without origin or from files that
    have no source map of their own, its table stays in order, whatever the
    texts, the origin positions and the changes of the indentation in
    between: after any such sequence of calls on a new writer the columns of
    every generated line are strictly ascending, the entries of the current
    line lie left of the current column, and no line behind the current one
    has an entry. *)
Theorem leaf_writes_keep_order (file : File) (options : option WriterOptions)
    (cs : list Call) :
  forallb withoutMap cs = true →
  let w := calls (SourceMapWriter.create file options) cs in
  let b := SourceMapWriter._sourceMapBuilder w in
  (∀ j, ascending (column <$> lineMappings b j) = true)
  ∧ (∀ e, e ∈ lineMappings b (SourceMapWriter._currentLine w) →
          column e < SourceMapWriter._currentColumn w)
  ∧ (∀ j, SourceMapWriter._currentLine w < j → lineMappings b j = []).
Proof.
  intros Hcs. cbv zeta.
  destruct (calls_ordered cs (SourceMapWriter.create file options) Hcs
              (create_ordered file options)) as (H1 & H2 & H3).
  done.
Qed.

Lemma leaf_writes_keep_order_witness :
  let cs := [CallWrite "ab" (Some fileA) 0 0; CallIndent; CallWrite a_b None 0 0;
             CallWrite "c" (Some fileO) 3 1; CallUnindent] in
  forallb withoutMap cs = true
  ∧ ascending (column <$> lineMappings
                 (SourceMapWriter._sourceMapBuilder
                    (calls (SourceMapWriter.create target None) cs)) 0) = true.
Proof.
  cbv zeta. split; [done|].
  apply (leaf_writes_keep_order target None
           [CallWrite "ab" (Some fileA) 0 0; CallIndent; CallWrite a_b None 0 0;
            CallWrite "c" (Some fileO) 3 1; CallUnindent]).
  done.
Defined.

(** ** The stream within its capacity *)

Lemma copy_prefix (source target : BufferStream.Buffer) (n : Z) :
  0 <= n <= BufferStream.blen source → n <= BufferStream.blen target →
  take (Z.to_nat n) (BufferStream.copy source target 0 0 n) = take (Z.to_nat n) source.
Proof.
  unfold BufferStream.copy, BufferStream.blen. intros Hs Ht.
  rewrite !Z.sub_0_r, (Z.min_l n), (Z.min_l n) by lia.
  destruct (Z.leb_spec n 0) as [H0|Hpos].
  - replace n with 0 by lia. done.
  - change (Z.to_nat 0) with 0%nat. rewrite take_0, drop_0, app_nil_l.
    rewrite take_app_le by (rewrite length_take; lia).
    rewrite take_take. f_equal. lia.
Qed.

Lemma copy_append (chunk target : BufferStream.Buffer) (n : Z) :
  0 <= n → n + BufferStream.blen chunk <= BufferStream.blen target →
  take (Z.to_nat (n + BufferStream.blen chunk))
    (BufferStream.copy chunk target n 0 (BufferStream.blen chunk))
  = take (Z.to_nat n) target ++ chunk.
Proof.
  unfold BufferStream.copy, BufferStream.blen. intros Hn Ht.
  rewrite Z.min_id, Z.sub_0_r, Z.min_l by lia.
  destruct (Z.leb_spec (Z.of_nat (length chunk)) 0) as [H0|Hpos].
  - destruct chunk; [|cbn [length] in H0; lia].
    cbn [length]. by rewrite Z.add_0_r, app_nil_r.
  - change (Z.to_nat 0) with 0%nat. rewrite drop_0.
    rewrite Nat2Z.id, firstn_all, app_assoc.
    apply take_app_length'. rewrite length_app, length_take. lia.
Qed.

Lemma ensureCapacity_live s n :
  0 <= BufferStream._length s <= BufferStream.capacity s → 0 < BufferStream.capacity s →
  ∃ s', BufferStream.ensureCapacity s n = Some s'
        ∧ BufferStream.file s' = BufferStream.file s
        ∧ BufferStream._length s' = BufferStream._length s
        ∧ written s' = written s
        ∧ BufferStream.capacity s'
          = (if n <? BufferStream.capacity s then BufferStream.capacity s
             else Z.min n (BufferStream.capacity s * 2 - 1)).
Proof.
  unfold BufferStream.capacity, BufferStream.ensureCapacity, written. intros Hl Hc.
  destruct (Z.ltb_spec n (BufferStream.blen (BufferStream._buffer s))) as [|Hn]; [by eexists|].
  rewrite allocUnsafe_Some by lia. cbn [mbind option_bind].
  eexists. split; [done|]. split; [done|]. split; [done|].
  cbn [BufferStream._buffer BufferStream._length]. split.
  - apply copy_prefix; [done|]. rewrite blen_replicate by lia. lia.
  - rewrite blen_copy by lia. apply blen_replicate. lia.
Qed.

Lemma _write_live s chunk :
  0 <= BufferStream._length s <= BufferStream.capacity s → 0 < BufferStream.capacity s →
  BufferStream._length s + BufferStream.blen chunk <= 2 * BufferStream.capacity s - 1 →
  ∃ s', BufferStream._write s chunk = Some s'
        ∧ BufferStream.file s' = BufferStream.file s
        ∧ BufferStream._length s' = BufferStream._length s + BufferStream.blen chunk
        ∧ BufferStream._length s' <= BufferStream.capacity s'
        ∧ BufferStream.capacity s <= BufferStream.capacity s'
        ∧ written s' = written s ++ chunk.
Proof.
  intros Hl Hc Hfit. unfold BufferStream._write.
  pose proof (blen_nonneg chunk) as Hch.
  destruct (ensureCapacity_live s (BufferStream._length s + BufferStream.blen chunk) Hl Hc)
    as (s1 & E & Ef & El & Ew & Ec).
  rewrite E. cbn [mbind option_bind]. eexists. split; [done|].
  unfold BufferStream.capacity, written in *.
  cbn [BufferStream._length BufferStream._buffer BufferStream.file].
  rewrite blen_copy by lia. rewrite El, Ec.
  split; [done|]. split; [done|].
  split; [destruct (Z.ltb_spec (BufferStream._length s + BufferStream.blen chunk)
                      (BufferStream.blen (BufferStream._buffer s))); lia|].
  split; [destruct (Z.ltb_spec (BufferStream._length s + BufferStream.blen chunk)
                      (BufferStream.blen (BufferStream._buffer s))); lia|].
  rewrite copy_append.
  - by rewrite <-Ew, El.
  - lia.
  - rewrite Ec.
    destruct (Z.ltb_spec (BufferStream._length s + BufferStream.blen chunk)
                (BufferStream.blen (BufferStream._buffer s))); lia.
Qed.

Lemma toBuffer_range s start end_ :
  0 <= start <= end_ → end_ <= BufferStream.capacity s →
  BufferStream.toBuffer s start end_
  = Some (take (Z.to_nat (end_ - start)) (drop (Z.to_nat start) (BufferStream._buffer s))).
Proof.
  unfold BufferStream.capacity, BufferStream.toBuffer. intros Hs He.
  rewrite allocUnsafe_Some by lia. cbn [mbind option_bind].
  destruct (Z.ltb_spec start 0) as [|_]; [lia|].
  destruct (Z.ltb_spec (BufferStream.blen (BufferStream._buffer s)) start) as [|_]; [lia|].
  cbn [orb]. f_equal. unfold BufferStream.copy.
  rewrite blen_replicate by lia.
  rewrite Z.sub_0_r, (Z.min_l end_), Z.min_id by lia.
  destruct (Z.leb_spec (end_ - start) 0) as [H0|Hpos].
  - replace (end_ - start) with 0 by lia. done.
  - change (Z.to_nat 0) with 0%nat. rewrite take_0, app_nil_l, Z.add_0_l.
    rewrite drop_replicate, Nat.sub_diag. cbn [replicate]. by rewrite app_nil_r.
Qed.

Lemma blen_app (a b : BufferStream.Buffer) :
  BufferStream.blen (a ++ b) = BufferStream.blen a + BufferStream.blen b.
Proof. unfold BufferStream.blen. rewrite length_app. lia. Qed.

Lemma writeAll_small chunks : ∀ s,
  0 <= BufferStream._length s <= BufferStream.capacity s →
  128 * 1024 <= BufferStream.capacity s →
  Forall (λ chunk, BufferStream.blen chunk < 128 * 1024) chunks →
  ∃ s', writeAll s chunks = Some s'
        ∧ BufferStream.file s' = BufferStream.file s
        ∧ BufferStream._length s'
          = BufferStream._length s + BufferStream.blen (concat chunks)
        ∧ BufferStream._length s' <= BufferStream.capacity s'
        ∧ BufferStream.capacity s <= BufferStream.capacity s'
        ∧ written s' = written s ++ concat chunks.
Proof.
  induction chunks as [|chunk chunks IH]; intros s Hl Hc Hall.
  - exists s. cbn [writeAll concat]. rewrite app_nil_r.
    change (BufferStream.blen []) with 0. rewrite Z.add_0_r.
    split; [done|]. split; [done|]. split; [done|]. split; [lia|]. split; [lia|]. done.
  - apply Forall_cons in Hall as [Hch Hall].
    pose proof (blen_nonneg chunk) as Hnn.
    destruct (_write_live s chunk) as (s1 & E & Ef & El & Elc & Ec & Ew); [lia..|].
    destruct (IH s1) as (s' & E' & Ef' & El' & Elc' & Ec' & Ew'); [lia|lia|done|].
    exists s'. cbn [writeAll concat]. rewrite E. cbn [mbind option_bind].
    rewrite blen_app, app_assoc, <-Ew.
    split; [exact E'|]. split; [by rewrite Ef'|]. split; [lia|]. split; [lia|].
    split; [lia|]. exact Ew'.
Qed.

(** X14.  [ensureCapacity] on a stream that holds at most as many bytes as
    its buffer has room for: it does not raise, it keeps the length and the
    bytes written so far, it never shrinks the buffer, and it reaches the
    requested capacity whenever the request is at most twice the capacity
    minus one. *)
Theorem ensureCapacity_keeps_bytes (s : BufferStream.t) (n : Z) :
  0 <= BufferStream.length s <= BufferStream.capacity s →
  0 < BufferStream.capacity s →
  ∃ s', BufferStream.ensureCapacity s n = Some s'
        ∧ BufferStream.length s' = BufferStream.length s
        ∧ written s' = written s
        ∧ BufferStream.capacity s <= BufferStream.capacity s'
        ∧ (n <= 2 * BufferStream.capacity s - 1 → n <= BufferStream.capacity s').
Proof.
  intros Hl Hc. unfold BufferStream.length in *.
  destruct (ensureCapacity_live s n Hl Hc) as (s' & E & _ & El & Ew & Ec).
  exists s'. rewrite Ec.
  split; [exact E|]. split; [exact El|]. split; [exact Ew|].
  destruct (Z.ltb_spec n (BufferStream.capacity s)); lia.
Qed.

Lemma ensureCapacity_keeps_bytes_witness :
  ∃ s', BufferStream.ensureCapacity (BufferStream.create target) 200000 = Some s'
        ∧ BufferStream.length s' = BufferStream.length (BufferStream.create target)
        ∧ written s' = written (BufferStream.create target)
        ∧ BufferStream.capacity (BufferStream.create target) <= BufferStream.capacity s'
        ∧ (200000 <= 2 * BufferStream.capacity (BufferStream.create target) - 1 →
           200000 <= BufferStream.capacity s').
Proof.
  apply (ensureCapacity_keeps_bytes (BufferStream.create target) 200000).
  - rewrite capacity_create. unfold BufferStream.length. cbn [BufferStream._length BufferStream.create]. lia.
  - rewrite capacity_create. lia.
Defined.

(** X15.  A write within reach of one growth step is exact: when the stream
    holds at most as many bytes as its buffer has room for, and the length
    plus the chunk is at most twice the capacity minus one, [_write] does not
    raise, the length grows by the length of the chunk, it stays within the
    capacity, and the bytes of the stream are the former ones followed by
    the chunk. *)
Theorem write_chunk_appends (s : BufferStream.t) (chunk : BufferStream.Buffer) :
  0 <= BufferStream.length s <= BufferStream.capacity s →
  0 < BufferStream.capacity s →
  BufferStream.length s + BufferStream.blen chunk <= 2 * BufferStream.capacity s - 1 →
  ∃ s', BufferStream._write s chunk = Some s'
        ∧ BufferStream.length s' = BufferStream.length s + BufferStream.blen chunk
        ∧ BufferStream.length s' <= BufferStream.capacity s'
        ∧ BufferStream.capacity s <= BufferStream.capacity s'
        ∧ written s' = written s ++ chunk.
Proof.
  unfold BufferStream.length. intros Hl Hc Hfit.
  destruct (_write_live s chunk Hl Hc Hfit) as (s' & E & _ & H).
  by exists s'.
Qed.

Lemma write_chunk_appends_witness :
  ∃ s', BufferStream._write (BufferStream.create target) [Some Byte.x61; Some Byte.x62] = Some s'
        ∧ BufferStream.length s'
          = BufferStream.length (BufferStream.create target)
            + BufferStream.blen [Some Byte.x61; Some Byte.x62]
        ∧ BufferStream.length s' <= BufferStream.capacity s'
        ∧ BufferStream.capacity (BufferStream.create target) <= BufferStream.capacity s'
        ∧ written s' = written (BufferStream.create target) ++ [Some Byte.x61; Some Byte.x62].
Proof.
  apply (write_chunk_appends (BufferStream.create target) [Some Byte.x61; Some Byte.x62]).
  - rewrite capacity_create. unfold BufferStream.length. cbn [BufferStream._length BufferStream.create]. lia.
  - rewrite capacity_create. lia.
  - rewrite capacity_create. unfold BufferStream.length, BufferStream.blen.
    cbn [BufferStream._length BufferStream.create length]. lia.
Defined.

(** X16.  A new stream fed with chunks that are each shorter than its first
    buffer (128 KiB) holds exactly what was written: no write raises, the
    length is the total length of the chunks and stays within the capacity,
    and [toBuffer()], which [end()] stores in the file, returns the chunks
    joined in order. *)
Theorem small_chunks_round_trip (f : File) (chunks : list BufferStream.Buffer) :
  Forall (λ chunk, BufferStream.blen chunk < 128 * 1024) chunks →
  ∃ s, writeAll (BufferStream.create f) chunks = Some s
       ∧ BufferStream.length s = BufferStream.blen (concat chunks)
       ∧ BufferStream.length s <= BufferStream.capacity s
       ∧ BufferStream.toBuffer s 0 (BufferStream.length s) = Some (concat chunks).
Proof.
  intros Hall.
  destruct (writeAll_small chunks (BufferStream.create f))
    as (s & E & _ & El & Elc & _ & Ew); [| |exact Hall|].
  { rewrite capacity_create. cbn [BufferStream._length BufferStream.create]. lia. }
  { rewrite capacity_create. lia. }
  change (BufferStream._length (BufferStream.create f)) with 0 in El.
  pose proof (blen_nonneg (concat chunks)) as Hnn.
  exists s. unfold BufferStream.length.
  split; [exact E|]. split; [lia|]. split; [exact Elc|].
  rewrite toBuffer_range by lia.
  rewrite Z.sub_0_r. change (Z.to_nat 0) with 0%nat. rewrite drop_0.
  fold (written s). rewrite Ew. unfold written.
  change (BufferStream._length (BufferStream.create f)) with 0.
  change (Z.to_nat 0) with 0%nat. by rewrite take_0.
Qed.

Lemma small_chunks_round_trip_witness :
  ∃ s, writeAll (BufferStream.create target)
         [[Some Byte.x61; Some Byte.x62]; []; [Some Byte.x63]] = Some s
       ∧ BufferStream.length s
         = BufferStream.blen (concat [[Some Byte.x61; Some Byte.x62]; []; [Some Byte.x63]])
       ∧ BufferStream.length s <= BufferStream.capacity s
       ∧ BufferStream.toBuffer s 0 (BufferStream.length s)
         = Some (concat [[Some Byte.x61; Some Byte.x62]; []; [Some Byte.x63]]).
Proof.
  apply (small_chunks_round_trip target [[Some Byte.x61; Some Byte.x62]; []; [Some Byte.x63]]).
  repeat (apply Forall_cons; split; [unfold BufferStream.blen; cbn [length]; lia|]).
  apply Forall_nil_2.
Defined.

(** X17.  [toBuffer(start, end)] within the buffer, [0 <= start <= end <=
    capacity], does not raise and returns the cells [start .. end) of the
    buffer, [end - start] of them. *)
Theorem toBuffer_slice (s : BufferStream.t) (start end_ : Z) :
  0 <= start <= end_ → end_ <= BufferStream.capacity s →
  ∃ r, BufferStream.toBuffer s start end_ = Some r
       ∧ BufferStream.blen r = end_ - start
       ∧ ∀ k, (k < Z.to_nat (end_ - start))%nat →
              r !! k = BufferStream._buffer s !! (Z.to_nat start + k)%nat.
Proof.
  intros Hs He. eexists. split; [by apply toBuffer_range|].
  unfold BufferStream.capacity, BufferStream.blen in *. split.
  - rewrite length_take, length_drop. lia.
  - intros k Hk. by rewrite lookup_take_lt, lookup_drop by done.
Qed.

Lemma toBuffer_slice_witness :
  ∃ r, BufferStream.toBuffer (BufferStream.create target) 2 5 = Some r
       ∧ BufferStream.blen r = 5 - 2
       ∧ ∀ k, (k < Z.to_nat (5 - 2))%nat →
              r !! k = BufferStream._buffer (BufferStream.create target) !! (Z.to_nat 2 + k)%nat.
Proof.
  apply (toBuffer_slice (BufferStream.create target) 2 5).
  - lia.
  - rewrite capacity_create. lia.
Defined.

(** * Composition through the map of the origin *)

(** ** Pushing entries *)






(** ** Source numbers *)



(** ** One line head *)

Lemma copyMappings_prefix sm len lastLineBreak i sc cc entries : ∀ l b,
  sources b `prefix_of`
    sources (SourceMapWriter.copyMappings sm len lastLineBreak i sc cc entries l b).2.
Proof.
  induction entries as [|m entries IH]; intros l b; cbn [SourceMapWriter.copyMappings].
  - done.
  - destruct ((i =? 0) && (column m <? sc)); [apply IH|].
    destruct ((i =? lastLineBreak) && _); [done|].
    cbv zeta. etrans; [apply addSource_prefix|apply IH].
Qed.


Lemma window_bound (first last : bool) (sc b1 b2 : Z) (es : list Mapping) :
  last = false ∨ b1 = b2 → window first last sc b1 es = window first last sc b2 es.
Proof.
  intros [-> | ->]; [|done].
  induction es as [|m es IH]; [done|]. cbn [window andb]. by rewrite IH.
Qed.

Section Spliced.

Import SourceMapWriter.

Variables (f : File) (len lastLineBreak : Z).

Lemma addMappings_prefix i w sl sc :
  sources (_sourceMapBuilder w)
    `prefix_of` sources (_sourceMapBuilder (addMappings f len lastLineBreak i w sl sc)).
Proof.
  unfold addMappings. cbn [_sourceMapBuilder setBuilder sources setLineMappings].
  etrans; [apply addSource_prefix|].
  destruct (sourceMapBuilder f); [apply copyMappings_prefix|done].
Qed.


End Spliced.

(** ** The lines of a write *)


Lemma emission_bound f b2 first last b1 b1' cc sl sc :
  last = false ∨ b1 = b1' →
  emission f b2 first last b1 cc sl sc = emission f b2 first last b1' cc sl sc.
Proof. intros H. unfold emission. by rewrite (window_bound _ _ _ b1 b1'). Qed.

Section SplicedLoop.

Import SourceMapWriter.

Variables (f : File) (len lastLineBreak : Z).













End SplicedLoop.

(** ** A write, line by line *)


(** ** A second stage over a map that fits its text *)







(** ** The map of a plain first stage fits its content *)





Section Composition.

Import SourceMapWriter.



End Composition.
